(** * A shallow embedding of [MetricsCollector] (message.py)

    The collector keeps one SQLite table [metrics] and offers three
    operations: [increment] appends a row stamped with the wall clock,
    [get_names] lists the distinct metric names in order, and [get_data]
    folds the rows of the last 24 hours into 300-second buckets and walks
    the window emitting one entry per bucket.

    The development has three layers:
    - the data and the two loops of [get_data], as pure functions;
    - the three methods, statement by statement, in a small state and
      exception monad over a [World] holding the clock, the table, the
      lock and the open connections;
    - an interleaving semantics of several threads running [increment]. *)

From stdpp Require Import gmap strings list sorting.
From Equations Require Import Equations.

Open Scope Z_scope.

(** ** Data *)

(** A row of table [metrics] (columns [name], [timestamp], [count]).  The
    [id INTEGER PRIMARY KEY AUTOINCREMENT] column is the position of the
    row in the table, which is kept in insertion order. *)
Module Row.
Record t := mk { name : string; timestamp : Z; count : Z }.
End Row.

(** One element of the list returned by [get_data]: the dict
    [{"timestamp": current, "count": ...}]. *)
Module Bucket.
Record t := mk { timestamp : Z; count : Z }.
End Bucket.

(** ** The pure part of [get_data] *)

(** [(timestamp // 300) * 300]; Python's [//] is floor division, as is
    [Z.div] for a positive divisor. *)
Definition align (timestamp : Z) : Z := (timestamp / 300) * 300.

(** [SELECT timestamp, count FROM metrics WHERE name = ? AND timestamp >= ?] *)
Definition select_data (table : list Row.t) (name : string) (start_time : Z)
  : list (Z * Z) :=
  (λ r, (Row.timestamp r, Row.count r)) <$>
    filter (λ r, Row.name r = name ∧ start_time ≤ Row.timestamp r) table.

(** The body of [for timestamp, count in rows]. *)
Definition add_row (buckets : gmap Z Z) (row : Z * Z) : gmap Z Z :=
  let '(timestamp, count) := row in
  let bucket := align timestamp in
  match buckets !! bucket with
  | Some sum => <[bucket := sum + count]> buckets
  | None => <[bucket := count]> buckets
  end.

(** [buckets = {}] followed by the [for] loop. *)
Definition fill_buckets (rows : list (Z * Z)) : gmap Z Z :=
  fold_left add_row rows ∅.

(** The body of the [while] loop: the entry appended for [current]. *)
Definition entry (buckets : gmap Z Z) (current : Z) : Bucket.t :=
  match buckets !! current with
  | Some sum => Bucket.mk current sum
  | None => Bucket.mk current 0
  end.

(** [while current <= end_time: result.append(...); current = current + 300].
    The distance to [end_time] shrinks at every turn. *)
Equations? walk (buckets : gmap Z Z) (current end_time : Z) : list Bucket.t
  by wf (Z.to_nat (end_time - current + 1)) lt :=
  walk buckets current end_time with decide (current ≤ end_time) => {
    | left _ => entry buckets current :: walk buckets (current + 300) end_time;
    | right _ => [] }.
Proof. lia. Qed.

(** Lines 67 to 84 of [get_data]: from the fetched rows to the result. *)
Definition series_of (rows : list (Z * Z)) (start_time end_time : Z)
  : list Bucket.t :=
  let buckets := fill_buckets rows in
  let current := align start_time in
  walk buckets current end_time.

(** ** The pure part of [get_names] *)

(** [SELECT DISTINCT name FROM metrics ORDER BY name].  The column has the
    default [BINARY] collation: names compare byte by byte, a proper prefix
    first, which is [String.le]. *)
Definition select_names (table : list Row.t) : list string :=
  merge_sort String.le (remove_dups (Row.name <$> table)).

(** [names = []; for row in cursor.fetchall(): names.append(row[0])] *)
Definition collect_names (fetched : list string) : list string :=
  fold_left (λ names row, names ++ [row]) fetched [].

(** ** The world the methods run in *)

(** A [sqlite3] connection: the rows inserted in its open transaction. *)
Record Connection := { pending : list Row.t }.

(** What the methods read and change.  The table exists in every world: the
    constructor runs [init_db] ([CREATE TABLE IF NOT EXISTS]) before any
    method can be called. *)
Record World := {
  clock : Z;                (* [int(time.time())] *)
  table : list Row.t;       (* committed rows of [metrics], in [id] order *)
  locked : bool;            (* [self.lock] is held *)
  connections : nat;        (* connections opened and not closed *)
  faults : list bool        (* which of the coming [sqlite3] calls raise *)
}.

Definition set_table (rows : list Row.t) (w : World) : World :=
  {| clock := clock w; table := rows; locked := locked w;
     connections := connections w; faults := faults w |}.
Definition set_locked (b : bool) (w : World) : World :=
  {| clock := clock w; table := table w; locked := b;
     connections := connections w; faults := faults w |}.
Definition set_connections (n : nat) (w : World) : World :=
  {| clock := clock w; table := table w; locked := locked w;
     connections := n; faults := faults w |}.
Definition set_faults (fs : list bool) (w : World) : World :=
  {| clock := clock w; table := table w; locked := locked w;
     connections := connections w; faults := fs |}.
Definition set_clock (now : Z) (w : World) : World :=
  {| clock := now; table := table w; locked := locked w;
     connections := connections w; faults := faults w |}.

Inductive exn := StorageError | RuntimeError | OverflowError.

(** How a method ends: it returns, an exception propagates to the caller,
    or it waits for ever on the lock. *)
Inductive outcome (A : Type) :=
| Returned (a : A)
| Raised (e : exn)
| Blocked.
Arguments Returned {A} a.
Arguments Raised {A} e.
Arguments Blocked {A}.

Definition M (A : Type) : Type := World → outcome A * World.

Definition ret {A} (a : A) : M A := λ w, (Returned a, w).

Definition bind {A B} (m : M A) (k : A → M B) : M B := λ w,
  match m w with
  | (Returned a, w') => k a w'
  | (Raised e, w') => (Raised e, w')
  | (Blocked, w') => (Blocked, w')
  end.

Notation "x <- m ;; k" := (bind m (λ x, k))
  (at level 100, m at next level, k at level 200, right associativity).
Notation "m ;; k" := (bind m (λ _, k))
  (at level 100, k at level 200, right associativity).

(** [raise e] *)
Definition raise {A} (e : exn) : M A := λ w, (Raised e, w).

(** The integers that the [INTEGER] column of SQLite holds: 64 bits, signed. *)
Definition int64 (z : Z) : Prop :=
  -9223372036854775808 ≤ z ≤ 9223372036854775807.

Global Instance int64_dec z : Decision (int64 z).
Proof. unfold int64. apply _. Defined.

(** [int(time.time())] *)
Definition time_time : M Z := λ w, (Returned (clock w), w).

(** [self.lock.acquire()]: waits while the lock is held. *)
Definition lock_acquire : M unit := λ w,
  if locked w then (Blocked, w) else (Returned (), set_locked true w).

(** [self.lock.release()]: releasing a free lock is a [RuntimeError]. *)
Definition lock_release : M unit := λ w,
  if locked w then (Returned (), set_locked false w)
  else (Raised RuntimeError, w).

(** A call into [sqlite3]: it consumes the next entry of [faults] and raises
    when that entry is [true]; with no entry left it succeeds. *)
Definition sqlite3_call {A} (effect : World → A * World) : M A := λ w,
  match faults w with
  | true :: fs => (Raised StorageError, set_faults fs w)
  | false :: fs => let '(a, w') := effect (set_faults fs w) in (Returned a, w')
  | [] => let '(a, w') := effect w in (Returned a, w')
  end.

(** [conn = sqlite3.connect(self.db_path); cursor = conn.cursor()] *)
Definition connect : M Connection :=
  sqlite3_call (λ w, ({| pending := [] |}, set_connections (S (connections w)) w)).

(** [cursor.execute("INSERT INTO metrics (name, timestamp, count) VALUES (?, ?, ?)", ...)]:
    binding a [count] that does not fit the column raises [OverflowError]
    ("Python int too large to convert to SQLite INTEGER"); otherwise the
    statement runs and the row joins the connection's open transaction.
    The timestamp is a reading of the clock in seconds, which fits. *)
Definition execute_insert (conn : Connection) (row : Row.t) : M Connection :=
  if decide (int64 (Row.count row))
  then sqlite3_call (λ w, ({| pending := pending conn ++ [row] |}, w))
  else raise OverflowError.

(** [conn.commit()]: the rows of the transaction reach the table. *)
Definition commit (conn : Connection) : M unit :=
  sqlite3_call (λ w, ((), set_table (table w ++ pending conn) w)).

(** [cursor.execute("SELECT DISTINCT name ..."); cursor.fetchall()] *)
Definition execute_select_names (conn : Connection) : M (list string) :=
  sqlite3_call (λ w, (select_names (table w), w)).

(** [cursor.execute("SELECT timestamp, count ...", (name, start_time)); cursor.fetchall()] *)
Definition execute_select_data (conn : Connection) (name : string) (start_time : Z)
  : M (list (Z * Z)) :=
  sqlite3_call (λ w, (select_data (table w) name start_time, w)).

(** [conn.close()] *)
Definition close (conn : Connection) : M unit := λ w,
  (Returned (), set_connections (Nat.pred (connections w)) w).

(** ** The three methods *)

Definition increment (name : string) (count : Z) : M unit :=
  timestamp <- time_time ;;
  lock_acquire ;;
  conn <- connect ;;
  conn <- execute_insert conn (Row.mk name timestamp count) ;;
  commit conn ;;
  close conn ;;
  lock_release.

Definition get_names : M (list string) :=
  conn <- connect ;;
  fetched <- execute_select_names conn ;;
  let names := collect_names fetched in
  close conn ;;
  ret names.

Definition get_data (name : string) : M (list Bucket.t) :=
  conn <- connect ;;
  end_time <- time_time ;;
  let start_time := end_time - 86400 in
  rows <- execute_select_data conn name start_time ;;
  close conn ;;
  ret (series_of rows start_time end_time).

(** [increment(name)] with the default [count=1]. *)
Definition increment_default (name : string) : M unit := increment name 1.

(** A fresh process: empty table, free lock, no connection, no fault. *)
Definition boot (now : Z) : World :=
  {| clock := now; table := []; locked := false; connections := 0; faults := [] |}.

(** ** Several threads inside [increment] *)

(** Where a thread stands in [increment]: the statement it runs next, with
    the locals assigned so far. *)
Inductive pc :=
| AtTime                                         (* [timestamp = int(time.time())] *)
| AtAcquire (timestamp : Z)                      (* [self.lock.acquire()] *)
| AtConnect (timestamp : Z)                      (* [conn = sqlite3.connect(...)] *)
| AtExecute (timestamp : Z) (conn : Connection)  (* [cursor.execute("INSERT ...")] *)
| AtCommit (conn : Connection)                   (* [conn.commit()] *)
| AtClose (conn : Connection)                    (* [conn.close()] *)
| AtRelease                                      (* [self.lock.release()] *)
| Finished                                       (* [increment] has returned *)
| Crashed (e : exn).                             (* an exception ended the thread *)

(** A caller of [increment(name, count)] and where it stands. *)
Record Thread := { call_name : string; call_count : Z; at_pc : pc }.

Definition set_pc (p : pc) (t : Thread) : Thread :=
  {| call_name := call_name t; call_count := call_count t; at_pc := p |}.

(** One statement of [increment], from the program point [p]. *)
Definition statement (name : string) (count : Z) (p : pc) : M pc :=
  match p with
  | AtTime => timestamp <- time_time ;; ret (AtAcquire timestamp)
  | AtAcquire timestamp => lock_acquire ;; ret (AtConnect timestamp)
  | AtConnect timestamp => conn <- connect ;; ret (AtExecute timestamp conn)
  | AtExecute timestamp conn =>
      conn <- execute_insert conn (Row.mk name timestamp count) ;; ret (AtCommit conn)
  | AtCommit conn => commit conn ;; ret (AtClose conn)
  | AtClose conn => close conn ;; ret AtRelease
  | AtRelease => lock_release ;; ret Finished
  | Finished => ret Finished
  | Crashed e => ret (Crashed e)
  end.

Definition running (p : pc) : bool :=
  match p with Finished | Crashed _ => false | _ => true end.

(** A single thread running its statements one after the other. *)
Fixpoint run_alone (fuel : nat) (name : string) (count : Z) (p : pc) : M unit :=
  match fuel with
  | O => ret ()
  | S fuel =>
      if running p
      then p' <- statement name count p ;; run_alone fuel name count p'
      else ret ()
  end.

(** Thread [i] runs its next statement when the clock shows [now].  A
    thread that waits for the lock cannot be scheduled; an exception ends
    the thread and leaves the world as the statement left it. *)
Definition exec (i : nat) (now : Z) (s : World * list Thread)
  : option (World * list Thread) :=
  match s.2 !! i with
  | Some t =>
      if running (at_pc t) then
        match statement (call_name t) (call_count t) (at_pc t) (set_clock now s.1) with
        | (Returned p, w') => Some (w', <[i := set_pc p t]> s.2)
        | (Raised e, w') => Some (w', <[i := set_pc (Crashed e) t]> s.2)
        | (Blocked, _) => None
        end
      else None
  | None => None
  end.

(** Any thread may run next, at any time of the clock. *)
Definition step (s s' : World * list Thread) : Prop :=
  ∃ i now, exec i now s = Some s'.

(** The callers, each about to enter [increment]. *)
Definition spawn (calls : list (string * Z)) : list Thread :=
  (λ c, {| call_name := c.1; call_count := c.2; at_pc := AtTime |}) <$> calls.

(** A schedule: which thread runs at each step, and the time then. *)
Fixpoint run_schedule (schedule : list (nat * Z)) (s : World * list Thread)
  : option (World * list Thread) :=
  match schedule with
  | [] => Some s
  | (i, now) :: schedule =>
      match exec i now s with
      | Some s' => run_schedule schedule s'
      | None => None
      end
  end.

(** Statements left before the thread has returned. *)
Definition remaining (p : pc) : nat :=
  match p with
  | AtTime => 7 | AtAcquire _ => 6 | AtConnect _ => 5 | AtExecute _ _ => 4
  | AtCommit _ => 3 | AtClose _ => 2 | AtRelease => 1
  | Finished | Crashed _ => 0
  end.

Definition work_left (threads : list Thread) : nat :=
  sum_list_with (λ t, remaining (at_pc t)) threads.

(** Between [acquire] and [release]. *)
Definition holding (p : pc) : bool :=
  match p with
  | AtConnect _ | AtExecute _ _ | AtCommit _ | AtClose _ | AtRelease => true
  | _ => false
  end.

(** Between [connect] and [close]. *)
Definition connected (p : pc) : bool :=
  match p with AtExecute _ _ | AtCommit _ | AtClose _ => true | _ => false end.

(** Past [commit]. *)
Definition committed (p : pc) : bool :=
  match p with AtClose _ | AtRelease | Finished => true | _ => false end.

Definition count_pc (f : pc → bool) (threads : list Thread) : nat :=
  length (filter (λ t, f (at_pc t) = true) threads).

(** The transaction of a thread holds its own row once inserted, and
    nothing before. *)
Definition pending_ok (t : Thread) : Prop :=
  match at_pc t with
  | AtExecute _ conn => pending conn = []
  | AtCommit conn =>
      ∃ timestamp, pending conn = [Row.mk (call_name t) timestamp (call_count t)]
  | Crashed _ => False
  | _ => True
  end.

Definition call_of (t : Thread) : string * Z := (call_name t, call_count t).
Definition call_in (r : Row.t) : string * Z := (Row.name r, Row.count r).

(** What holds of every state that the threads can reach from a healthy
    world [w0] with a free lock. *)
Record invariant (w0 : World) (calls : list (string * Z))
    (w : World) (threads : list Thread) : Prop := {
  inv_calls : call_of <$> threads = calls;
  inv_counts : Forall (λ t, int64 (call_count t)) threads;
  inv_healthy : faults w = [];
  inv_lock : count_pc holding threads = if locked w then 1%nat else 0%nat;
  inv_connections :
    connections w = (connections w0 + count_pc connected threads)%nat;
  inv_pending : Forall pending_ok threads;
  inv_table : ∃ new, table w = table w0 ++ new ∧
     call_in <$> new ≡ₚ call_of <$> filter (λ t, committed (at_pc t) = true) threads
}.

(** ** Notions used to state the properties *)

(** Sum of the [count] column over some rows. *)
Definition sum_counts (rows : list Row.t) : Z :=
  foldr (λ r acc, Row.count r + acc) 0 rows.

(** Sum of the counts of a series (the dashboard's "Total (24h)"). *)
Definition total (series : list Bucket.t) : Z :=
  foldr (λ b acc, Bucket.count b + acc) 0 series.

(** What the fetched rows contribute to bucket [b]. *)
Definition tally (b : Z) (rows : list (Z * Z)) : Z :=
  foldr (λ row acc, if decide (align row.1 = b) then row.2 + acc else acc) 0 rows.

(** No coming [sqlite3] call raises. *)
Definition healthy (w : World) : Prop := faults w = [].

(** The rows of metric [name] that the query of [get_data] selects at time
    [now] and whose timestamp lies in the 300 seconds from [b] on. *)
Definition events_in (table : list Row.t) (name : string) (now b : Z) : list Row.t :=
  filter (λ r, Row.name r = name ∧ now - 86400 ≤ Row.timestamp r
               ∧ b ≤ Row.timestamp r < b + 300) table.

(** The series as the specification describes it: 289 buckets, 300 seconds
    apart, from the aligned start of the window, each with the sum of the
    counts of its events.  [get_data] is compared with it below. *)
Definition window_series (table : list Row.t) (name : string) (now : Z)
  : list Bucket.t :=
  (λ k, let b := (now - 86400) / 300 * 300 + 300 * k in
        Bucket.mk b (sum_counts (events_in table name now b))) <$> seqZ 0 289.

(** The store of the specification's scenario: "a" recorded three times
    and "b" once, shortly before time 1100. *)
Definition demo : World :=
  set_table [Row.mk "a" 1000 1; Row.mk "a" 1010 1; Row.mk "a" 1020 1;
             Row.mk "b" 1030 1] (boot 1100).

(** Two callers, and a schedule in which the first reads the clock, then
    the second runs from its first statement to its last, then the first
    completes. *)
Definition two_calls : list (string * Z) := [("a", 1); ("b", 1)].

Definition second_overtakes : list (nat * Z) :=
  [(0%nat, 1100); (1%nat, 1100); (1%nat, 1100); (1%nat, 1101); (1%nat, 1101);
   (1%nat, 1101); (1%nat, 1102); (1%nat, 1102); (0%nat, 1102); (0%nat, 1103);
   (0%nat, 1103); (0%nat, 1103); (0%nat, 1104); (0%nat, 1104)].

(** ** The HTTP handler *)

(** [s.split(sep)] for a separator of one character: the pieces between
    the separators, of which there is always at least one. *)
Fixpoint split (sep : Ascii.ascii) (s : string) : list string :=
  match s with
  | EmptyString => [EmptyString]
  | String c s' =>
      if Ascii.eqb c sep then EmptyString :: split sep s'
      else match split sep s' with
           | piece :: pieces => String c piece :: pieces
           | [] => [String c EmptyString]
           end
  end.

(** The character ["/"] (code 47). *)
Definition slash : Ascii.ascii := Ascii.ascii_of_nat 47.

(** [self.path.split("/")[-1]]; the list of pieces is never empty, so the
    index [-1] never raises. *)
Definition last_segment (path : string) : string :=
  default EmptyString (last (split slash path)).

(** What the handler writes as the body, before it is encoded. *)
Inductive payload :=
| Html                              (* [get_html().encode()] *)
| Names (names : list string)       (* [json.dumps(names).encode()] *)
| Data (data : list Bucket.t).      (* [json.dumps(data).encode()] *)

Inductive response :=
| Response (status : nat) (content_type : string) (body : payload)
    (* [send_response], [send_header("Content-type", ...)], [end_headers], [wfile.write] *)
| Error (status : nat).             (* [send_error] *)

(** [Handler.do_GET], with [collector] the [MetricsCollector] whose world
    the monad carries.  The collector is queried before anything is sent. *)
Definition do_GET (path : string) : M response :=
  if decide (path = "/") then
    ret (Response 200 "text/html" Html)
  else if decide (path = "/api/names") then
    names <- get_names ;;
    ret (Response 200 "application/json" (Names names))
  else if String.prefix "/api/data/" path then
    let name := last_segment path in
    data <- get_data name ;;
    ret (Response 200 "application/json" (Data data))
  else
    ret (Error 404).

(** No ["/"] in a string. *)
Fixpoint slash_free (s : string) : bool :=
  match s with
  | EmptyString => true
  | String c s' => negb (Ascii.eqb c slash) && slash_free s'
  end.

(** ** The statistics of the dashboard *)

(** The numbers of the script are IEEE doubles.  Every integer of absolute
    value at most 2^53 is one of them, and the sum of two of them that is
    again such an integer is computed exactly; beyond that range a count
    read from the JSON text, or a sum, is rounded. *)
Definition exact (z : Z) : Prop := -9007199254740992 ≤ z ≤ 9007199254740992.

Global Instance exact_dec z : Decision (exact z).
Proof. unfold exact. apply _. Defined.

(** The script's value for the integer [z]: [Some z] in the exact range,
    [None] where the page goes on with a rounded value, which is not
    modelled. *)
Definition number (z : Z) : option Z :=
  if decide (exact z) then Some z else None.

(** The three numbers that [loadData] (the script of the page returned by
    [get_html]) computes from the array fetched from [/api/data/<name>];
    each is [None] once a value it is computed from has left the exact
    range. *)
Module Stats.
Record t := mk { total : option Z; recent : option Z; peak : option Z }.
End Stats.

(** The body of [for (var i = 0; i < data.length; i++)]. *)
Definition stats_turn (len : nat) (i : nat) (acc : Stats.t) (d : Bucket.t) : Stats.t :=
  let count := number (Bucket.count d) in
  let total := t ← Stats.total acc; c ← count; number (t + c) in
  let peak := p ← Stats.peak acc; c ← count; Some (if p <? c then c else p) in
  let recent := if Z.of_nat len - 12 <=? Z.of_nat i
                then r ← Stats.recent acc; c ← count; number (r + c)
                else Stats.recent acc in
  Stats.mk total recent peak.

Fixpoint stats_loop (len i : nat) (data : list Bucket.t) (acc : Stats.t) : Stats.t :=
  match data with
  | [] => acc
  | d :: data => stats_loop len (S i) data (stats_turn len i acc d)
  end.

(** [var total = 0; var recent = 0; var peak = 0;] and the loop. *)
Definition stats (data : list Bucket.t) : Stats.t :=
  stats_loop (length data) 0 data (Stats.mk (Some 0) (Some 0) (Some 0)).

(** The counts of a series, and of some rows, added in absolute value. *)
Definition total_abs (series : list Bucket.t) : Z :=
  foldr (λ b acc, Z.abs (Bucket.count b) + acc) 0 series.


(** A series whose counts (such as 2^53 + 1) the script cannot all hold. *)
Definition large_series : list Bucket.t :=
  [Bucket.mk 0 9007199254740993; Bucket.mk 300 1].

(** ** Threads when a storage call raises *)

(** [increment] has returned. *)
Definition finished (p : pc) : bool :=
  match p with Finished => true | _ => false end.

(** Two callers and a storage whose second call raises: the first caller
    reads the clock, takes the lock and connects, and its [INSERT] raises. *)
Definition first_crashes : list (nat * Z) :=
  [(0%nat, 1100); (0%nat, 1100); (0%nat, 1100); (0%nat, 1100)].

Definition crashed : World * list Thread :=
  (set_locked true (set_connections 1 (boot 1100)),
   [ {| call_name := "a"; call_count := 1; at_pc := Crashed StorageError |};
     {| call_name := "b"; call_count := 1; at_pc := AtTime |} ]).

(** The second caller has then read the clock, and waits for the lock. *)
Definition after_crash : World * list Thread :=
  (set_clock 1101 (set_locked true (set_connections 1 (boot 1100))),
   [ {| call_name := "a"; call_count := 1; at_pc := Crashed StorageError |};
     {| call_name := "b"; call_count := 1; at_pc := AtAcquire 1101 |} ]).

(** * Properties *)

(** ** Bucket alignment *)

(** Linear arithmetic with the floor divisions by 300 spelled out. *)
Ltac div_lia := unfold align in *; Z.to_euclidean_division_equations; lia.

Lemma align_floor t : align t = 300 * (t / 300).
Proof. div_lia. Qed.

Lemma align_bounds t : align t ≤ t < align t + 300.
Proof. div_lia. Qed.

Lemma align_unique b t : b `mod` 300 = 0 → b ≤ t < b + 300 → align t = b.
Proof. div_lia. Qed.

Lemma align_mod t : align t `mod` 300 = 0.
Proof. div_lia. Qed.

Lemma align_grid t k : align (align t + 300 * k) = align t + 300 * k.
Proof. div_lia. Qed.

Lemma align_day t : align (t - 86400) = align t - 86400.
Proof. div_lia. Qed.

(** ** The [for] loop: counts are added per bucket *)

Lemma lookup_add_row buckets timestamp count b :
  default 0 (add_row buckets (timestamp, count) !! b) =
  default 0 (buckets !! b) + (if decide (align timestamp = b) then count else 0).
Proof.
  unfold add_row. case_decide as Hb.
  - subst b. destruct (buckets !! align timestamp) as [sum|] eqn:Hsum;
      rewrite lookup_insert_eq; simpl; lia.
  - destruct (buckets !! align timestamp);
      rewrite lookup_insert_ne by done; lia.
Qed.

Lemma add_row_other buckets timestamp count b :
  align timestamp ≠ b → add_row buckets (timestamp, count) !! b = buckets !! b.
Proof.
  intros Hb. unfold add_row.
  destruct (buckets !! align timestamp); by rewrite lookup_insert_ne.
Qed.

Lemma lookup_fold_add_row rows buckets b :
  default 0 (fold_left add_row rows buckets !! b) =
  default 0 (buckets !! b) + tally b rows.
Proof.
  revert buckets. induction rows as [|[timestamp count] rows IH]; intros buckets.
  - simpl. lia.
  - change (fold_left add_row ((timestamp, count) :: rows) buckets)
      with (fold_left add_row rows (add_row buckets (timestamp, count))).
    rewrite IH, lookup_add_row. simpl.
    case_decide; lia.
Qed.

Lemma lookup_fill_buckets rows b :
  default 0 (fill_buckets rows !! b) = tally b rows.
Proof.
  unfold fill_buckets. rewrite lookup_fold_add_row, lookup_empty. simpl. lia.
Qed.

Lemma entry_alt buckets current :
  entry buckets current = Bucket.mk current (default 0 (buckets !! current)).
Proof. unfold entry. by destruct (buckets !! current). Qed.

Lemma tally_app b rows1 rows2 :
  tally b (rows1 ++ rows2) = tally b rows1 + tally b rows2.
Proof.
  induction rows1 as [|row rows1 IH]; simpl; [lia|].
  case_decide; lia.
Qed.

Lemma sum_counts_app rows1 rows2 :
  sum_counts (rows1 ++ rows2) = sum_counts rows1 + sum_counts rows2.
Proof. induction rows1; simpl; lia. Qed.

Lemma sum_counts_Permutation rows1 rows2 :
  rows1 ≡ₚ rows2 → sum_counts rows1 = sum_counts rows2.
Proof. induction 1; simpl; lia. Qed.

(** The tally of the selected rows, read back on the table. *)
Lemma tally_select_data table name start_time b :
  tally b (select_data table name start_time) =
  sum_counts (filter (λ r, Row.name r = name ∧ start_time ≤ Row.timestamp r
                           ∧ align (Row.timestamp r) = b) table).
Proof.
  unfold select_data.
  induction table as [|r table IH]; [done|].
  rewrite !filter_cons.
  destruct (decide (Row.name r = name ∧ start_time ≤ Row.timestamp r)) as [Hsel|Hsel].
  - rewrite fmap_cons. simpl tally. rewrite IH.
    case_decide as Hb.
    + rewrite decide_True by tauto. done.
    + rewrite decide_False by tauto. done.
  - rewrite decide_False by tauto. done.
Qed.

(** ** The [while] loop: one entry every 300 seconds *)

Lemma walk_loop buckets current end_time :
  walk buckets current end_time =
  if decide (current ≤ end_time)
  then entry buckets current :: walk buckets (current + 300) end_time
  else [].
Proof. rewrite walk_equation_1. by destruct (decide (current ≤ end_time)). Qed.

Lemma walk_steps (n : nat) buckets current end_time :
  current ≤ end_time + 300 →
  (end_time - current + 300) / 300 = Z.of_nat n →
  walk buckets current end_time =
  (λ k, entry buckets (current + 300 * k)) <$> seqZ 0 (Z.of_nat n).
Proof.
  revert current. induction n as [|n IH]; intros current Hle Hn.
  - rewrite walk_loop, decide_False by div_lia. done.
  - rewrite walk_loop, decide_True by div_lia.
    rewrite seqZ_cons by lia. rewrite fmap_cons. f_equal.
    + f_equal. lia.
    + rewrite (IH (current + 300)) by div_lia.
      replace (Z.pred (Z.of_nat (S n))) with (Z.of_nat n) by lia.
      rewrite <- (fmap_add_seqZ 1 0), <- list_fmap_compose.
      apply list_fmap_ext. intros _ k _. simpl. f_equal. lia.
Qed.

(** The walk reads the buckets through their counts only. *)
Lemma walk_ext buckets buckets' current end_time :
  (∀ b, default 0 (buckets !! b) = default 0 (buckets' !! b)) →
  walk buckets current end_time = walk buckets' current end_time.
Proof.
  intros Hext. funelim (walk buckets current end_time).
  - (* one more turn *)
    rewrite (walk_loop buckets'), decide_True by done.
    f_equal; [by rewrite !entry_alt, Hext|]. by apply H.
  - (* the loop is left *)
    by rewrite (walk_loop buckets'), decide_False.
Qed.

Lemma tally_Permutation b rows rows' :
  rows ≡ₚ rows' → tally b rows = tally b rows'.
Proof. induction 1; simpl; repeat case_decide; lia. Qed.

(** The query has no [ORDER BY]: the order in which the rows are fetched
    does not show in the result. *)
Lemma series_of_Permutation rows rows' start_time end_time :
  rows ≡ₚ rows' →
  series_of rows start_time end_time = series_of rows' start_time end_time.
Proof.
  intros Hperm. unfold series_of. apply walk_ext. intros b.
  rewrite !lookup_fill_buckets. by apply tally_Permutation.
Qed.

(** Over the 24-hour window the loop makes 289 turns, whatever the time. *)
Lemma series_of_window rows end_time :
  series_of rows (end_time - 86400) end_time =
  (λ k, entry (fill_buckets rows) (align (end_time - 86400) + 300 * k)) <$> seqZ 0 289.
Proof.
  unfold series_of. apply (walk_steps 289); div_lia.
Qed.

(** ** Running the methods when no storage call raises *)

Lemma events_in_align table name now b :
  b `mod` 300 = 0 →
  filter (λ r, Row.name r = name ∧ now - 86400 ≤ Row.timestamp r
               ∧ align (Row.timestamp r) = b) table =
  events_in table name now b.
Proof.
  intros Hb. unfold events_in. apply list_filter_iff. intros r.
  split; intros (? & ? & ?); (split; [done|split; [done|div_lia]]).
Qed.

(** [get_data] computes the series of the specification. *)
Lemma get_data_healthy name w :
  healthy w →
  get_data name w = (Returned (window_series (table w) name (clock w)), w).
Proof.
  unfold healthy. intros Hw.
  unfold get_data, bind, connect, execute_select_data, close, time_time,
    sqlite3_call, ret.
  rewrite Hw. simpl. rewrite Hw. simpl. f_equal.
  - f_equal. rewrite series_of_window. unfold window_series.
    apply list_fmap_ext. intros _ k _.
    rewrite entry_alt, lookup_fill_buckets, tally_select_data.
    unfold align at 1 2. simpl. f_equal.
    rewrite events_in_align by div_lia. done.
  - destruct w. simpl in *. by subst.
Qed.

Lemma increment_healthy name count w :
  healthy w → locked w = false → int64 count →
  increment name count w =
  (Returned (), set_table (table w ++ [Row.mk name (clock w) count]) w).
Proof.
  unfold healthy. intros Hw Hl Hcount.
  unfold increment, bind, time_time, lock_acquire, connect, execute_insert,
    commit, close, lock_release, sqlite3_call.
  rewrite Hl. simpl. rewrite Hw. simpl. rewrite decide_True by done.
  unfold sqlite3_call. simpl. rewrite Hw. simpl. rewrite Hw. simpl.
  f_equal. destruct w. simpl in *. by subst.
Qed.

(** A count that does not fit: [increment] raises after it has taken the
    lock and opened its connection, and releases neither. *)
Lemma increment_overflow name count w :
  healthy w → locked w = false → ¬ int64 count →
  increment name count w =
  (Raised OverflowError, set_locked true (set_connections (S (connections w)) w)).
Proof.
  unfold healthy. intros Hw Hl Hcount.
  unfold increment, bind, time_time, lock_acquire, connect, execute_insert,
    raise, sqlite3_call.
  rewrite Hl. simpl. rewrite Hw. simpl. by rewrite decide_False by done.
Qed.

Lemma collect_names_id fetched : collect_names fetched = fetched.
Proof.
  unfold collect_names.
  enough (∀ names, fold_left (λ names row, names ++ [row]) fetched names
                   = names ++ fetched) as H by apply H.
  induction fetched as [|row fetched IH]; intros names; simpl.
  - by rewrite app_nil_r.
  - by rewrite IH, <- app_assoc.
Qed.

Lemma get_names_healthy w :
  healthy w → get_names w = (Returned (select_names (table w)), w).
Proof.
  unfold healthy. intros Hw.
  unfold get_names, bind, connect, execute_select_names, close, sqlite3_call, ret.
  rewrite Hw. simpl. rewrite Hw. simpl. rewrite collect_names_id.
  f_equal. destruct w. simpl in *. by subst.
Qed.

(** ** The series of the specification *)

Lemma length_window_series table name now :
  length (window_series table name now) = 289%nat.
Proof. unfold window_series. by rewrite length_fmap, length_seqZ. Qed.

Lemma lookup_window_series table name now (i : nat) :
  (i < 289)%nat →
  window_series table name now !! i =
  Some (let b := (now - 86400) / 300 * 300 + 300 * Z.of_nat i in
        Bucket.mk b (sum_counts (events_in table name now b))).
Proof.
  intros Hi. unfold window_series.
  rewrite list_lookup_fmap, lookup_seqZ_lt by lia. done.
Qed.

Lemma lookup_window_series_Some table name now (i : nat) b :
  window_series table name now !! i = Some b →
  (i < 289)%nat ∧
  Bucket.timestamp b = (now - 86400) / 300 * 300 + 300 * Z.of_nat i ∧
  Bucket.count b = sum_counts (events_in table name now (Bucket.timestamp b)).
Proof.
  intros Hb. assert (i < 289)%nat as Hi.
  { apply lookup_lt_Some in Hb. by rewrite length_window_series in Hb. }
  rewrite lookup_window_series in Hb by done.
  injection Hb as <-. done.
Qed.

Lemma elem_of_window_series table name now b :
  b ∈ window_series table name now →
  (∃ k, 0 ≤ k < 289 ∧ Bucket.timestamp b = (now - 86400) / 300 * 300 + 300 * k) ∧
  Bucket.count b = sum_counts (events_in table name now (Bucket.timestamp b)).
Proof.
  intros (i & Hi)%list_elem_of_lookup.
  apply lookup_window_series_Some in Hi as (? & ? & ?).
  split; [|done]. exists (Z.of_nat i). lia.
Qed.

Lemma events_in_app table1 table2 name now b :
  events_in (table1 ++ table2) name now b =
  events_in table1 name now b ++ events_in table2 name now b.
Proof. apply filter_app. Qed.

Lemma events_in_singleton r name now b :
  events_in [r] name now b =
  if decide (Row.name r = name ∧ now - 86400 ≤ Row.timestamp r
             ∧ b ≤ Row.timestamp r < b + 300) then [r] else [].
Proof. unfold events_in. rewrite filter_cons. by case_decide. Qed.

(** The position, in the series at time [now], of the bucket of [timestamp]. *)
Lemma bucket_position now timestamp :
  now - 86400 ≤ timestamp < now / 300 * 300 + 300 →
  ∃ i : nat, (i < 289)%nat ∧
    timestamp / 300 * 300 = (now - 86400) / 300 * 300 + 300 * Z.of_nat i.
Proof.
  intros Ht. exists (Z.to_nat (timestamp / 300 - (now - 86400) / 300)).
  split; [div_lia|]. rewrite Z2Nat.id by div_lia. lia.
Qed.

(** One more row changes the series in the bucket of its timestamp only. *)
Lemma window_series_snoc table name now r (i : nat) :
  Row.name r = name → now - 86400 ≤ Row.timestamp r →
  (i < 289)%nat →
  Row.timestamp r / 300 * 300 = (now - 86400) / 300 * 300 + 300 * Z.of_nat i →
  ∃ b, window_series table name now !! i = Some b ∧
       Bucket.timestamp b = Row.timestamp r / 300 * 300 ∧
       window_series (table ++ [r]) name now =
       <[i := Bucket.mk (Bucket.timestamp b) (Bucket.count b + Row.count r)]>
         (window_series table name now).
Proof.
  intros Hname Hstart Hi Hpos.
  eexists. split; [by apply lookup_window_series|]. split; [simpl; lia|].
  apply list_eq. intros j.
  destruct (decide (j < 289)%nat) as [Hj|Hj].
  - destruct (decide (i = j)) as [<-|Hij].
    + rewrite list_lookup_insert_eq by (rewrite length_window_series; lia).
      rewrite lookup_window_series by done. simpl. do 2 f_equal.
      rewrite events_in_app, sum_counts_app, events_in_singleton.
      rewrite decide_True by (split; [done|split; [done|div_lia]]).
      simpl. lia.
    + rewrite list_lookup_insert_ne by done.
      rewrite !lookup_window_series by done. simpl. do 2 f_equal.
      rewrite events_in_app, sum_counts_app, events_in_singleton.
      rewrite decide_False by (intros (_ & _ & ?); apply Hij; div_lia).
      simpl. lia.
  - rewrite !lookup_ge_None_2; [done| |].
    + rewrite length_insert, length_window_series. lia.
    + rewrite length_window_series. lia.
Qed.

(** A row that the query skips, or that lies beyond the last bucket, changes
    nothing. *)
Lemma window_series_snoc_out table name now r :
  ¬ (Row.name r = name ∧ now - 86400 ≤ Row.timestamp r
     ∧ Row.timestamp r < now / 300 * 300 + 300) →
  window_series (table ++ [r]) name now = window_series table name now.
Proof.
  intros Hout. unfold window_series.
  apply list_fmap_ext. intros _ k Hk%list_elem_of_lookup_2%elem_of_seqZ.
  simpl. f_equal.
  rewrite events_in_app, sum_counts_app, events_in_singleton.
  rewrite decide_False; [simpl; lia|].
  intros (? & ? & ?). apply Hout. split; [done|split; [done|div_lia]].
Qed.

Lemma total_insert series (i : nat) b b' :
  series !! i = Some b →
  total (<[i := b']> series) = total series - Bucket.count b + Bucket.count b'.
Proof.
  revert i. induction series as [|b0 series IH]; intros [|i] Hb; simplify_eq/=.
  - lia.
  - rewrite (IH i) by done. lia.
Qed.

Lemma total_zero {A} (f : A → Z) (l : list A) :
  total ((λ k, Bucket.mk (f k) 0) <$> l) = 0.
Proof.
  induction l as [|k l IH]; [done|].
  rewrite fmap_cons. simpl. lia.
Qed.

Lemma total_nonneg series :
  (∀ b, b ∈ series → 0 ≤ Bucket.count b) → 0 ≤ total series.
Proof.
  induction series as [|b series IH]; intros Hpos; simpl; [lia|].
  pose proof (Hpos b (list_elem_of_here _ _)).
  enough (0 ≤ total series) by lia.
  apply IH. intros b' Hb'. apply Hpos. by apply list_elem_of_further.
Qed.

Lemma sum_counts_nonneg rows :
  (∀ r, r ∈ rows → 0 ≤ Row.count r) → 0 ≤ sum_counts rows.
Proof.
  induction rows as [|r rows IH]; intros Hpos; simpl; [lia|].
  pose proof (Hpos r (list_elem_of_here _ _)).
  enough (0 ≤ sum_counts rows) by lia.
  apply IH. intros r' Hr'. apply Hpos. by apply list_elem_of_further.
Qed.

(** The series loses and repeats nothing: its total is the sum of the rows
    that the query selects and that lie before the end of the last bucket. *)
Lemma total_window_series table name now :
  total (window_series table name now) =
  sum_counts (filter (λ r, Row.name r = name ∧ now - 86400 ≤ Row.timestamp r
                           ∧ Row.timestamp r < now / 300 * 300 + 300) table).
Proof.
  induction table as [|r table IH] using rev_ind.
  - apply total_zero.
  - rewrite filter_app, sum_counts_app, <- IH, filter_cons.
    case_decide as Hsel.
    + destruct Hsel as (Hname & Hstart & Hend).
      destruct (bucket_position now (Row.timestamp r)) as (i & Hi & Hpos);
        [by split|].
      destruct (window_series_snoc table name now r i) as (b & Hb & _ & ->);
        [done..|].
      rewrite (total_insert _ _ b) by done. simpl. lia.
    + rewrite window_series_snoc_out by done. simpl. lia.
Qed.

Lemma events_in_unknown table name now b :
  (∀ r, r ∈ table → Row.name r ≠ name) → events_in table name now b = [].
Proof.
  unfold events_in. induction table as [|r table IH]; intros Hnone; [done|].
  rewrite filter_cons, decide_False.
  - apply IH. intros r' Hr'. apply Hnone. by apply list_elem_of_further.
  - intros (Hname & _). by apply (Hnone r (list_elem_of_here _ _)).
Qed.

(** ** The series returned by [get_data] *)

(** Once no stored timestamp is later than the clock, the rows that count
    for a bucket are those of the closed window [now - 86400, now]. *)
Lemma events_in_no_future table name now b :
  (∀ r, r ∈ table → Row.timestamp r ≤ now) →
  events_in table name now b =
  filter (λ r, Row.name r = name ∧ now - 86400 ≤ Row.timestamp r ≤ now
               ∧ b ≤ Row.timestamp r < b + 300) table.
Proof.
  unfold events_in. induction table as [|r table IH]; intros Hpast; [done|].
  pose proof (Hpast r (list_elem_of_here _ _)) as Hr.
  rewrite !filter_cons, IH.
  - destruct (decide (Row.name r = name ∧ now - 86400 ≤ Row.timestamp r
                      ∧ b ≤ Row.timestamp r < b + 300)) as [Hsel|Hsel].
    + rewrite decide_True; [done|]. destruct Hsel as (? & ? & ?). auto.
    + rewrite decide_False; [done|]. intros (? & [? _] & ?). auto.
  - intros r' Hr'. apply Hpast. by apply list_elem_of_further.
Qed.

(** C1: for every metric name, in every store, [get_data] reports the
    bucket of every event of that name in the trailing window (the series
    has its 289 entries, 300 seconds apart, and the entry that holds the
    event's timestamp is among them), and the count that it reports for a
    bucket is the sum of the counts of all those events whose timestamps
    fall in the 300 seconds of that bucket; the events are a list with
    repetitions, so equal timestamps are added like any others.  The window
    starts at [now - 86400], as in the query; when no stored timestamp is
    later than the clock it is the closed interval [now - 86400, now]. *)
Theorem get_data_adds_counts name w :
  healthy w →
  ∃ series,
    get_data name w = (Returned series, w) ∧
    length series = 289%nat ∧
    (∀ (i : nat) b, series !! i = Some b →
       Bucket.timestamp b = (clock w - 86400) / 300 * 300 + 300 * Z.of_nat i) ∧
    (∀ r, r ∈ table w → Row.name r = name →
       clock w - 86400 ≤ Row.timestamp r → Row.timestamp r / 300 * 300 ≤ clock w →
       ∃ b, b ∈ series ∧
            Bucket.timestamp b ≤ Row.timestamp r < Bucket.timestamp b + 300 ∧
            r ∈ events_in (table w) name (clock w) (Bucket.timestamp b)) ∧
    ∀ b, b ∈ series →
      Bucket.count b =
        sum_counts (events_in (table w) name (clock w) (Bucket.timestamp b)) ∧
      ((∀ r, r ∈ table w → Row.timestamp r ≤ clock w) →
       Bucket.count b =
         sum_counts
           (filter (λ r, Row.name r = name
                         ∧ clock w - 86400 ≤ Row.timestamp r ≤ clock w
                         ∧ Bucket.timestamp b ≤ Row.timestamp r
                                              < Bucket.timestamp b + 300)
              (table w))).
Proof.
  intros Hw. eexists. split; [by apply get_data_healthy|].
  split; [apply length_window_series|]. split; [|split].
  - by intros i b (_ & Hb & _)%lookup_window_series_Some.
  - intros r Hr Hname Hstart Hend.
    destruct (bucket_position (clock w) (Row.timestamp r)) as (i & Hi & Hpos);
      [div_lia|].
    eexists. split.
    { apply list_elem_of_lookup. exists i. by apply lookup_window_series. }
    simpl. rewrite <- Hpos. split; [div_lia|].
    apply list_elem_of_filter. split; [|done].
    split; [done|]. split; [done|]. div_lia.
  - intros b Hb. apply elem_of_window_series in Hb as [_ Hcount].
    split; [done|]. intros Hpast. by rewrite <- events_in_no_future.
Qed.

Lemma get_data_adds_counts_witness :
  healthy demo ∧
  ∃ series,
    get_data "a" demo = (Returned series, demo) ∧
    length series = 289%nat ∧
    (∀ (i : nat) b, series !! i = Some b →
       Bucket.timestamp b = (clock demo - 86400) / 300 * 300 + 300 * Z.of_nat i) ∧
    (∀ r, r ∈ table demo → Row.name r = "a" →
       clock demo - 86400 ≤ Row.timestamp r →
       Row.timestamp r / 300 * 300 ≤ clock demo →
       ∃ b, b ∈ series ∧
            Bucket.timestamp b ≤ Row.timestamp r < Bucket.timestamp b + 300 ∧
            r ∈ events_in (table demo) "a" (clock demo) (Bucket.timestamp b)) ∧
    ∀ b, b ∈ series →
      Bucket.count b =
        sum_counts (events_in (table demo) "a" (clock demo) (Bucket.timestamp b)) ∧
      ((∀ r, r ∈ table demo → Row.timestamp r ≤ clock demo) →
       Bucket.count b =
         sum_counts
           (filter (λ r, Row.name r = "a"
                         ∧ clock demo - 86400 ≤ Row.timestamp r ≤ clock demo
                         ∧ Bucket.timestamp b ≤ Row.timestamp r
                                              < Bucket.timestamp b + 300)
              (table demo))).
Proof. split; [reflexivity|]. apply (get_data_adds_counts "a" demo). reflexivity. Defined.

(** The scenario of the specification: three events of "a" in one bucket
    add up to 3 there, and the series has 289 entries and total 3. *)
Example get_data_demo :
  ∃ series,
    get_data "a" demo = (Returned series, demo) ∧
    series !! 288%nat = Some (Bucket.mk 900 3) ∧
    length series = 289%nat ∧ total series = 3.
Proof. eexists. repeat split; vm_compute; reflexivity. Qed.

(** C2: whatever the name, the time and the store, [get_data] returns
    exactly 289 buckets; the first starts at floor((now - 86400)/300)*300,
    each next one 300 seconds later, and a bucket without events is present
    with count 0. *)
Theorem get_data_289_buckets name w :
  healthy w →
  ∃ series,
    get_data name w = (Returned series, w) ∧
    length series = 289%nat ∧
    Bucket.timestamp <$> series !! 0%nat = Some ((clock w - 86400) / 300 * 300) ∧
    (∀ (i : nat) b b', series !! i = Some b → series !! S i = Some b' →
       Bucket.timestamp b' = Bucket.timestamp b + 300) ∧
    (∀ b, b ∈ series →
       events_in (table w) name (clock w) (Bucket.timestamp b) = [] →
       Bucket.count b = 0).
Proof.
  intros Hw. eexists. split; [by apply get_data_healthy|].
  split; [apply length_window_series|]. split; [|split].
  - rewrite lookup_window_series by lia. simpl. f_equal. lia.
  - intros i b b' (_ & Hb & _)%lookup_window_series_Some
      (_ & Hb' & _)%lookup_window_series_Some. lia.
  - intros b [_ ->]%elem_of_window_series ->. done.
Qed.

Lemma get_data_289_buckets_witness :
  healthy (boot 1100) ∧
  ∃ series,
    get_data "a" (boot 1100) = (Returned series, boot 1100) ∧
    length series = 289%nat ∧
    Bucket.timestamp <$> series !! 0%nat
      = Some ((clock (boot 1100) - 86400) / 300 * 300) ∧
    (∀ (i : nat) b b', series !! i = Some b → series !! S i = Some b' →
       Bucket.timestamp b' = Bucket.timestamp b + 300) ∧
    (∀ b, b ∈ series →
       events_in (table (boot 1100)) "a" (clock (boot 1100)) (Bucket.timestamp b) = [] →
       Bucket.count b = 0).
Proof. split; [reflexivity|]. apply (get_data_289_buckets "a" (boot 1100)). reflexivity. Defined.

(** C3: an event that contributes to the series (the query selects it and
    the walk reaches its bucket) is assigned to the bucket that starts at
    floor(timestamp / 300) * 300, which holds its timestamp and the 299
    seconds around it: storing the event changes the series in that entry
    and in no other, and adds the event's count there. *)
Theorem get_data_bucket_of_event name w r :
  healthy w →
  Row.name r = name →
  clock w - 86400 ≤ Row.timestamp r →
  Row.timestamp r / 300 * 300 ≤ clock w →
  let w' := set_table (table w ++ [r]) w in
  ∃ before after (i : nat) b,
    get_data name w = (Returned before, w) ∧
    get_data name w' = (Returned after, w') ∧
    before !! i = Some b ∧
    Bucket.timestamp b = Row.timestamp r / 300 * 300 ∧
    Bucket.timestamp b ≤ Row.timestamp r < Bucket.timestamp b + 300 ∧
    after = <[i := Bucket.mk (Bucket.timestamp b) (Bucket.count b + Row.count r)]> before.
Proof.
  intros Hw Hname Hstart Hend w'.
  destruct (bucket_position (clock w) (Row.timestamp r)) as (i & Hi & Hpos);
    [div_lia|].
  destruct (window_series_snoc (table w) name (clock w) r i)
    as (b & Hb & Hbucket & Hafter); [done..|].
  exists (window_series (table w) name (clock w)),
    (window_series (table w') name (clock w')), i, b.
  split; [by apply get_data_healthy|].
  split; [by apply get_data_healthy|].
  split; [done|]. split; [done|]. split; [div_lia|]. done.
Qed.

Lemma get_data_bucket_of_event_witness :
  healthy demo ∧ Row.name (Row.mk "a" 1040 7) = "a" ∧
  clock demo - 86400 ≤ Row.timestamp (Row.mk "a" 1040 7) ∧
  Row.timestamp (Row.mk "a" 1040 7) / 300 * 300 ≤ clock demo ∧
  let r := Row.mk "a" 1040 7 in
  let w' := set_table (table demo ++ [r]) demo in
  ∃ before after (i : nat) b,
    get_data "a" demo = (Returned before, demo) ∧
    get_data "a" w' = (Returned after, w') ∧
    before !! i = Some b ∧
    Bucket.timestamp b = Row.timestamp r / 300 * 300 ∧
    Bucket.timestamp b ≤ Row.timestamp r < Bucket.timestamp b + 300 ∧
    after = <[i := Bucket.mk (Bucket.timestamp b) (Bucket.count b + Row.count r)]> before.
Proof.
  split; [reflexivity|]. split; [reflexivity|]. split; [simpl; lia|].
  split; [vm_compute; discriminate|].
  apply (get_data_bucket_of_event "a" demo (Row.mk "a" 1040 7));
    [reflexivity|reflexivity|simpl; lia|vm_compute; discriminate].
Defined.

(** C4: for a name that no stored event carries, [get_data] returns, without
    raising, the full series of 289 buckets, each with count 0. *)
Theorem get_data_unknown_name name w :
  healthy w →
  (∀ r, r ∈ table w → Row.name r ≠ name) →
  ∃ series,
    get_data name w = (Returned series, w) ∧
    length series = 289%nat ∧
    series = (λ k, Bucket.mk ((clock w - 86400) / 300 * 300 + 300 * k) 0) <$> seqZ 0 289.
Proof.
  intros Hw Hnone. eexists. split; [by apply get_data_healthy|].
  split; [apply length_window_series|].
  unfold window_series. apply list_fmap_ext. intros _ k _. simpl. f_equal.
  by rewrite events_in_unknown.
Qed.

Lemma get_data_unknown_name_witness :
  healthy demo ∧ (∀ r, r ∈ table demo → Row.name r ≠ "ghost") ∧
  ∃ series,
    get_data "ghost" demo = (Returned series, demo) ∧
    length series = 289%nat ∧
    series = (λ k, Bucket.mk ((clock demo - 86400) / 300 * 300 + 300 * k) 0) <$> seqZ 0 289.
Proof.
  assert (∀ r, r ∈ table demo → Row.name r ≠ "ghost") as Hghost.
  { intros r Hr. simpl in Hr.
    repeat (apply elem_of_cons in Hr as [->|Hr]; [simpl; congruence|]).
    by apply elem_of_nil in Hr. }
  split; [reflexivity|]. split; [exact Hghost|].
  apply (get_data_unknown_name "ghost" demo); [reflexivity|exact Hghost].
Defined.

(** C10: when every stored event of a name has its timestamp within
    [now - 86400, now], the counts of the 289 buckets add up to the sum of
    the counts of those events. *)
Theorem get_data_conserves_counts name w :
  healthy w →
  (∀ r, r ∈ table w → Row.name r = name →
        clock w - 86400 ≤ Row.timestamp r ≤ clock w) →
  ∃ series,
    get_data name w = (Returned series, w) ∧
    length series = 289%nat ∧
    total series = sum_counts (filter (λ r, Row.name r = name) (table w)).
Proof.
  intros Hw Hwin. eexists. split; [by apply get_data_healthy|].
  split; [apply length_window_series|].
  rewrite total_window_series. f_equal.
  induction (table w) as [|r rows IH]; [done|].
  rewrite !filter_cons, IH.
  - pose proof (Hwin r (list_elem_of_here _ _)) as Hr.
    destruct (decide (Row.name r = name)) as [Hname|Hname].
    + rewrite decide_True; [done|].
      split; [done|]. specialize (Hr Hname). div_lia.
    + rewrite decide_False; [done|]. by intros (? & _).
  - intros r' Hr'. apply Hwin. by apply list_elem_of_further.
Qed.

Lemma get_data_conserves_counts_witness :
  healthy demo ∧
  (∀ r, r ∈ table demo → Row.name r = "a" →
        clock demo - 86400 ≤ Row.timestamp r ≤ clock demo) ∧
  ∃ series,
    get_data "a" demo = (Returned series, demo) ∧
    length series = 289%nat ∧
    total series = sum_counts (filter (λ r, Row.name r = "a") (table demo)).
Proof.
  assert (∀ r, r ∈ table demo → Row.name r = "a" →
               clock demo - 86400 ≤ Row.timestamp r ≤ clock demo) as Hwin.
  { intros r Hr _. simpl in Hr.
    repeat (apply elem_of_cons in Hr as [->|Hr]; [simpl; lia|]).
    by apply elem_of_nil in Hr. }
  split; [reflexivity|]. split; [exact Hwin|].
  apply (get_data_conserves_counts "a" demo); [reflexivity|exact Hwin].
Defined.

(** ** [increment] *)

(** C7, as the code has it: [increment] checks nothing about [count]: for
    every integer that fits the 64-bit column, zero and negatives included,
    the call returns and the row appended to the table carries that very
    value, with the current timestamp. *)
Theorem increment_forwards_any_count name (count : Z) w :
  healthy w → locked w = false →
  -9223372036854775808 ≤ count ≤ 9223372036854775807 →
  increment name count w =
  (Returned (), set_table (table w ++ [Row.mk name (clock w) count]) w).
Proof. apply increment_healthy. Qed.

Lemma increment_forwards_any_count_witness :
  healthy demo ∧ locked demo = false ∧
  -9223372036854775808 ≤ -3 ≤ 9223372036854775807 ∧
  increment "a" (-3) demo =
  (Returned (), set_table (table demo ++ [Row.mk "a" (clock demo) (-3)]) demo).
Proof.
  split; [reflexivity|]. split; [reflexivity|]. split; [lia|].
  apply (increment_forwards_any_count "a" (-3) demo); [reflexivity|reflexivity|lia].
Defined.

(** C7 as stated fails: the integer 2^63 is not accepted.  In a fresh
    process [increment("a", 2 ** 63)] raises [OverflowError] when the count
    is bound to the statement; nothing is stored, and the lock and the
    connection stay as the call left them. *)
Lemma increment_rejects_large_count :
  increment "a" (2 ^ 63) (boot 1100) =
  (Raised OverflowError,
   {| clock := 1100; table := []; locked := true; connections := 1; faults := [] |}).
Proof. reflexivity. Qed.

Lemma events_in_nonneg table name now b :
  (∀ r, r ∈ table → Row.name r = name → now - 86400 ≤ Row.timestamp r →
        0 ≤ Row.count r) →
  0 ≤ sum_counts (events_in table name now b).
Proof.
  intros Hpos. apply sum_counts_nonneg.
  intros r (Hr & Hin)%list_elem_of_filter. apply Hpos; tauto.
Qed.

(** C5, as the code has it: after [increment x c] with [c ≥ 1] (and [c]
    within the 64-bit column), a [get_data x] at the same time shows a
    nonzero count in the bucket that contains the current time and a total
    of at least [c], provided no event of [x] already stored in the window
    has a negative count. *)
Theorem increment_then_get_data x c w :
  healthy w → locked w = false → 1 ≤ c ≤ 9223372036854775807 →
  (∀ r, r ∈ table w → Row.name r = x → clock w - 86400 ≤ Row.timestamp r →
        0 ≤ Row.count r) →
  ∃ series w',
    (increment x c ;; get_data x) w = (Returned series, w') ∧
    length series = 289%nat ∧
    (∃ b, b ∈ series ∧
          Bucket.timestamp b ≤ clock w < Bucket.timestamp b + 300 ∧
          Bucket.count b ≠ 0) ∧
    c ≤ total series.
Proof.
  intros Hw Hlock Hc Hpos.
  set (r := Row.mk x (clock w) c).
  set (w' := set_table (table w ++ [r]) w).
  exists (window_series (table w') x (clock w')), w'.
  split.
  { unfold bind. rewrite increment_healthy by (done || (unfold int64; lia)).
    by apply get_data_healthy. }
  split; [apply length_window_series|].
  destruct (window_series_snoc (table w) x (clock w) r 288)
    as (b & Hb & Hstart & Hafter); [done|simpl; lia|lia|simpl; div_lia|].
  simpl in Hstart.
  assert (0 ≤ Bucket.count b) as Hb0.
  { apply lookup_window_series_Some in Hb as (_ & _ & ->).
    by apply events_in_nonneg. }
  change (window_series (table w') x (clock w'))
    with (window_series (table w ++ [r]) x (clock w)).
  rewrite Hafter. split.
  - eexists. split.
    + apply list_elem_of_lookup. exists 288%nat.
      apply list_lookup_insert_eq. rewrite length_window_series. lia.
    + simpl. split; [div_lia|lia].
  - rewrite (total_insert _ _ b) by done. cbn [Bucket.count Row.count r].
    enough (0 ≤ total (window_series (table w) x (clock w))) by lia.
    apply total_nonneg.
    intros b' [_ ->]%elem_of_window_series. by apply events_in_nonneg.
Qed.

Lemma increment_then_get_data_witness :
  healthy demo ∧ locked demo = false ∧ 1 ≤ 5 ≤ 9223372036854775807 ∧
  (∀ r, r ∈ table demo → Row.name r = "a" → clock demo - 86400 ≤ Row.timestamp r →
        0 ≤ Row.count r) ∧
  ∃ series w',
    (increment "a" 5 ;; get_data "a") demo = (Returned series, w') ∧
    length series = 289%nat ∧
    (∃ b, b ∈ series ∧
          Bucket.timestamp b ≤ clock demo < Bucket.timestamp b + 300 ∧
          Bucket.count b ≠ 0) ∧
    5 ≤ total series.
Proof.
  assert (∀ r, r ∈ table demo → Row.name r = "a" →
               clock demo - 86400 ≤ Row.timestamp r → 0 ≤ Row.count r) as Hpos.
  { intros r Hr _ _. simpl in Hr.
    repeat (apply elem_of_cons in Hr as [->|Hr]; [simpl; lia|]).
    by apply elem_of_nil in Hr. }
  split; [reflexivity|]. split; [reflexivity|]. split; [lia|]. split; [exact Hpos|].
  apply (increment_then_get_data "a" 5 demo); [reflexivity|reflexivity|lia|exact Hpos].
Defined.

(** C5 as stated fails: in a fresh process, [increment("x", -5)] is accepted,
    and after a following [increment("x", 5)] at the same second the bucket
    that contains the current time shows 0 and the total is 0, not at least 5. *)
Lemma round_trip_after_negative_count :
  ∃ series w',
    (increment "x" (-5) ;; increment "x" 5 ;; get_data "x") (boot 1100)
      = (Returned series, w') ∧
    series !! 288%nat = Some (Bucket.mk 900 0) ∧
    900 ≤ clock (boot 1100) < 900 + 300 ∧
    total series = 0 ∧ ¬ 5 ≤ total series.
Proof.
  eexists _, _. split; [vm_compute; reflexivity|].
  split; [vm_compute; reflexivity|].
  split; [simpl; lia|].
  split; [vm_compute; reflexivity|].
  vm_compute. intros H. apply H. reflexivity.
Qed.

(** ** [get_names] *)

(** [String.le] is the lexicographic order on the bytes of the names. *)
Lemma String_le_nil s : String.le EmptyString s.
Proof. by destruct s. Qed.

Lemma String_le_cons a s b t :
  String.le (String a s) (String b t) ↔
  (Ascii.N_of_ascii a < Ascii.N_of_ascii b)%N ∨ (a = b ∧ String.le s t).
Proof.
  unfold String.le, String.leb. simpl.
  destruct (Ascii.compare a b) eqn:Hab.
  - apply Ascii.compare_eq_iff in Hab as ->. split; [by right|].
    intros [?|[_ ?]]; [lia|done].
  - unfold Ascii.compare in Hab. apply N.compare_lt_iff in Hab.
    split; [by left|done].
  - unfold Ascii.compare in Hab. apply N.compare_gt_iff in Hab.
    split; [done|]. intros [?|[-> _]]; lia.
Qed.

Lemma elem_of_select_names table n :
  n ∈ select_names table ↔ ∃ r, r ∈ table ∧ Row.name r = n.
Proof.
  unfold select_names.
  rewrite merge_sort_Permutation, elem_of_remove_dups, list_elem_of_fmap.
  split; [intros (r & -> & ?)|intros (r & ? & <-)]; by exists r.
Qed.

Lemma NoDup_select_names table : NoDup (select_names table).
Proof.
  unfold select_names. rewrite merge_sort_Permutation. apply NoDup_remove_dups.
Qed.

Lemma Sorted_select_names table : StronglySorted String.le (select_names table).
Proof. unfold select_names. apply StronglySorted_merge_sort; apply _. Qed.

(** C6: [get_names] returns exactly the distinct names of the stored rows,
    in lexicographic order and without duplicates, and calling it twice in a
    row gives the same list twice. *)
Theorem get_names_sorted_distinct w :
  healthy w →
  ∃ names,
    get_names w = (Returned names, w) ∧
    (∀ n, n ∈ names ↔ ∃ r, r ∈ table w ∧ Row.name r = n) ∧
    NoDup names ∧
    StronglySorted String.le names ∧
    (first <- get_names ;; second <- get_names ;; ret (first, second)) w
      = (Returned (names, names), w).
Proof.
  intros Hw. exists (select_names (table w)).
  split; [by apply get_names_healthy|].
  split; [apply elem_of_select_names|].
  split; [apply NoDup_select_names|].
  split; [apply Sorted_select_names|].
  unfold bind. by rewrite !get_names_healthy.
Qed.

Lemma get_names_sorted_distinct_witness :
  healthy demo ∧
  ∃ names,
    get_names demo = (Returned names, demo) ∧
    (∀ n, n ∈ names ↔ ∃ r, r ∈ table demo ∧ Row.name r = n) ∧
    NoDup names ∧
    StronglySorted String.le names ∧
    (first <- get_names ;; second <- get_names ;; ret (first, second)) demo
      = (Returned (names, names), demo).
Proof. split; [reflexivity|]. apply (get_names_sorted_distinct demo). reflexivity. Defined.

(** The scenario of the specification: the names are ["a"; "b"]. *)
Example get_names_demo : get_names demo = (Returned ["a"; "b"], demo).
Proof. vm_compute. reflexivity. Qed.

(** ** Lock and connections on the exit paths *)

(** Run a method on a world whose coming faults are [fs], one case per
    storage call that may raise. *)
Ltac run_methods fs :=
  unfold increment, get_names, get_data, bind, time_time, lock_acquire, connect,
    execute_insert, execute_select_names, execute_select_data, commit, close,
    lock_release, sqlite3_call, raise, ret;
  simpl;
  destruct fs as [|[] [|[] [|[] fs]]]; simpl;
  try case_decide; simpl.

(** C8 as stated fails: when the [INSERT] raises (the connection was
    opened, the second [sqlite3] call raises), [increment] propagates the
    error with the lock still held and the connection still open; a later
    [increment] then waits for ever.  [get_data] whose [SELECT] raises
    leaves its connection open in the same way. *)
Lemma increment_raises_holding_lock :
  increment "x" 1 (set_faults [false; true] (boot 1100)) =
    (Raised StorageError,
     {| clock := 1100; table := []; locked := true; connections := 1; faults := [] |})
  ∧ increment "x" 1
      {| clock := 1100; table := []; locked := true; connections := 1; faults := [] |} =
    (Blocked,
     {| clock := 1100; table := []; locked := true; connections := 1; faults := [] |})
  ∧ get_data "x" (set_faults [false; true] (boot 1100)) =
    (Raised StorageError,
     {| clock := 1100; table := []; locked := false; connections := 1; faults := [] |}).
Proof. repeat split. Qed.

(** C8, as the code has it: each operation opens its own connection
    ([increment] only once it has the lock: while it waits it opens nothing)
    and, whenever it returns, has closed it and has left the lock free; with
    no storage fault, and for [increment] a count that fits the column, it
    does return.  When a call raises inside [increment], be it a storage
    error or the overflow of the count, the error propagates at once and
    the lock stays held. *)
Theorem handles_released_on_return name count w :
  locked w = false →
  (∀ w', increment name count w = (Returned (), w') →
         locked w' = false ∧ connections w' = connections w) ∧
  (∀ names w', get_names w = (Returned names, w') →
         locked w' = false ∧ connections w' = connections w) ∧
  (∀ series w', get_data name w = (Returned series, w') →
         locked w' = false ∧ connections w' = connections w) ∧
  (healthy w →
     (int64 count → ∃ w', increment name count w = (Returned (), w')) ∧
     (∃ names w', get_names w = (Returned names, w')) ∧
     (∃ series w', get_data name w = (Returned series, w'))) ∧
  (∀ e w', increment name count w = (Raised e, w') →
         (e = StorageError ∨ e = OverflowError) ∧ locked w' = true) ∧
  increment name count (set_locked true w) = (Blocked, set_locked true w).
Proof.
  intros Hlock. destruct w as [now rows lk conns fs]. simpl in Hlock. subst lk.
  split_and!.
  - intros w'. run_methods fs. all: by intros [= <-].
  - intros names w'. run_methods fs. all: by intros [= _ <-].
  - intros series w'. run_methods fs. all: by intros [= _ <-].
  - intros Hw. split_and!.
    + intros Hcount. eexists. by apply increment_healthy.
    + eexists _, _. by apply get_names_healthy.
    + eexists _, _. by apply get_data_healthy.
  - intros e w'. run_methods fs. all: intros [= <- <-]; by auto.
  - done.
Qed.

Lemma handles_released_on_return_witness :
  locked demo = false ∧
  (∀ w', increment "a" 1 demo = (Returned (), w') →
         locked w' = false ∧ connections w' = connections demo) ∧
  (∀ names w', get_names demo = (Returned names, w') →
         locked w' = false ∧ connections w' = connections demo) ∧
  (∀ series w', get_data "a" demo = (Returned series, w') →
         locked w' = false ∧ connections w' = connections demo) ∧
  (healthy demo →
     (int64 1 → ∃ w', increment "a" 1 demo = (Returned (), w')) ∧
     (∃ names w', get_names demo = (Returned names, w')) ∧
     (∃ series w', get_data "a" demo = (Returned series, w'))) ∧
  (∀ e w', increment "a" 1 demo = (Raised e, w') →
         (e = StorageError ∨ e = OverflowError) ∧ locked w' = true) ∧
  increment "a" 1 (set_locked true demo) = (Blocked, set_locked true demo).
Proof. split; [reflexivity|]. apply (handles_released_on_return "a" 1 demo). reflexivity. Defined.

(** ** Threads inside [increment] *)

(** The statements, run one after the other by a single thread, are
    [increment]. *)
Lemma run_alone_increment name count w :
  run_alone 7 name count AtTime w = increment name count w.
Proof.
  destruct w as [now rows lk conns fs].
  unfold increment, run_alone, statement, bind, time_time, lock_acquire, connect,
    execute_insert, commit, close, lock_release, sqlite3_call, raise, ret; simpl.
  destruct lk; [done|]. simpl.
  destruct fs as [|[] [|[] [|[] fs]]]; simpl; try case_decide; reflexivity.
Qed.

Lemma exec_inv i now w threads s' :
  exec i now (w, threads) = Some s' →
  ∃ l1 t l2 o w',
    threads = l1 ++ t :: l2 ∧
    running (at_pc t) = true ∧
    statement (call_name t) (call_count t) (at_pc t) (set_clock now w) = (o, w') ∧
    match o with
    | Returned p => s' = (w', l1 ++ set_pc p t :: l2)
    | Raised e => s' = (w', l1 ++ set_pc (Crashed e) t :: l2)
    | Blocked => False
    end.
Proof.
  unfold exec. simpl. intros Hexec.
  destruct (threads !! i) as [t|] eqn:Hi; [|done].
  destruct (running (at_pc t)) eqn:Hrun; [|done].
  destruct (statement _ _ _ _) as [o w'] eqn:Hst.
  exists (take i threads), t, (drop (S i) threads), o, w'.
  split; [by rewrite take_drop_middle|]. split; [done|]. split; [done|].
  assert (i < length threads)%nat by by eapply lookup_lt_Some.
  destruct o; [| |done]; injection Hexec as <-; by rewrite insert_take_drop.
Qed.

Lemma count_pc_middle f l1 t l2 :
  count_pc f (l1 ++ t :: l2) =
  (count_pc f l1 + (if f (at_pc t) then 1 else 0) + count_pc f l2)%nat.
Proof.
  unfold count_pc. rewrite filter_app, filter_cons, length_app.
  destruct (f (at_pc t)); [rewrite decide_True by done|rewrite decide_False by done];
    simpl; lia.
Qed.

Lemma committed_middle l1 t l2 :
  filter (λ t, committed (at_pc t) = true) (l1 ++ t :: l2) =
  filter (λ t, committed (at_pc t) = true) l1 ++
  (if committed (at_pc t) then [t] else []) ++
  filter (λ t, committed (at_pc t) = true) l2.
Proof.
  rewrite filter_app, filter_cons.
  by destruct (committed (at_pc t));
    [rewrite decide_True by done|rewrite decide_False by done].
Qed.

Lemma work_left_middle l1 t l2 :
  work_left (l1 ++ t :: l2) =
  (work_left l1 + remaining (at_pc t) + work_left l2)%nat.
Proof.
  unfold work_left. rewrite sum_list_with_app. simpl. lia.
Qed.

Lemma invariant_spawn w0 calls :
  healthy w0 → locked w0 = false → Forall (λ c, int64 c.2) calls →
  invariant w0 calls w0 (spawn calls).
Proof.
  intros Hw Hlock.
  assert (∀ f, f AtTime = false → count_pc f (spawn calls) = 0%nat) as Hcount.
  { intros f Hf. unfold count_pc, spawn.
    induction calls as [|c calls IH]; [done|].
    rewrite fmap_cons, filter_cons, decide_False; [done|].
    simpl. by rewrite Hf. }
  intros Hcounts. split.
  - unfold spawn. rewrite <- list_fmap_compose.
    rewrite <- (list_fmap_id calls) at 2. apply list_fmap_ext. by intros _ [] _.
  - unfold spawn. by apply Forall_fmap.
  - done.
  - rewrite Hlock. by apply Hcount.
  - rewrite Hcount by done. lia.
  - unfold spawn. apply Forall_fmap, Forall_forall. by intros c _.
  - exists []. split; [by rewrite app_nil_r|].
    assert (filter (λ t, committed (at_pc t) = true) (spawn calls) = []) as ->; [|done].
    apply length_zero_iff_nil. by apply (Hcount committed).
Qed.

(** The parts of the invariant that a statement does not touch. *)
Ltac frame_invariant :=
  rewrite ?count_pc_middle, ?committed_middle, ?work_left_middle,
    ?fmap_app, ?fmap_cons;
  simpl; try done; try lia.

Lemma invariant_step w0 calls w threads w' threads' :
  invariant w0 calls w threads →
  step (w, threads) (w', threads') →
  invariant w0 calls w' threads' ∧ S (work_left threads') = work_left threads.
Proof.
  intros [Hcalls Hcounts Hh Hlock Hconn Hpend (new & Htab & Hperm)]
    (i & now & Hexec).
  apply exec_inv in Hexec as (l1 & t & l2 & o & w1 & -> & Hrun & Hst & Ho).
  rewrite count_pc_middle in Hlock, Hconn.
  rewrite committed_middle, !fmap_app in Hperm.
  apply Forall_app in Hpend as [Hp1 [Hpt Hp2]%Forall_cons].
  assert (∀ p, pending_ok (set_pc p t) →
               Forall pending_ok (l1 ++ set_pc p t :: l2)) as Hpend.
  { intros p Hp. apply Forall_app. split; [done|]. by apply Forall_cons. }
  apply Forall_app in Hcounts as [Hc1 [Hct Hc2]%Forall_cons].
  assert (∀ p, Forall (λ t, int64 (call_count t)) (l1 ++ set_pc p t :: l2))
    as Hcounts.
  { intros p. apply Forall_app. split; [done|]. by apply Forall_cons. }
  rewrite fmap_app, fmap_cons in Hcalls.
  destruct t as [name count p]. unfold pending_ok in Hpt, Hpend. simpl in *.
  unfold statement, bind, time_time, lock_acquire, connect, execute_insert,
    commit, close, lock_release, sqlite3_call, raise, ret in Hst.
  destruct p; try done; simpl in Hst, Hlock, Hconn, Hperm; rewrite ?Hh in Hst.
  - (* timestamp = int(time.time()) *)
    simplify_eq/=. split; [split|]; frame_invariant.
    + by apply Hpend.
    + by exists new.
  - (* self.lock.acquire(): the lock was free *)
    destruct (locked w) eqn:Hlocked; simplify_eq/=; [done|].
    split; [split|]; frame_invariant.
    + by apply Hpend.
    + by exists new.
  - (* conn = sqlite3.connect(self.db_path) *)
    simplify_eq/=. split; [split|]; frame_invariant.
    + by apply Hpend.
    + by exists new.
  - (* cursor.execute("INSERT ..."): the count fits *)
    rewrite decide_True in Hst by done. simpl in Hst. rewrite Hh in Hst.
    simplify_eq/=. split; [split|]; frame_invariant.
    + apply Hpend. rewrite Hpt. by eexists.
    + by exists new.
  - (* conn.commit() *)
    destruct Hpt as [timestamp Hrow].
    simplify_eq/=. split; [split|]; frame_invariant.
    + by apply Hpend.
    + exists (new ++ pending conn). split; [by rewrite Htab, app_assoc|].
      rewrite Hrow, fmap_app, Hperm. simpl.
      etrans; [symmetry; apply Permutation_cons_append|].
      apply Permutation_middle.
  - (* conn.close() *)
    simplify_eq/=. split; [split|]; frame_invariant.
    + by apply Hpend.
    + by exists new.
  - (* self.lock.release(): the lock is held, by this thread *)
    destruct (locked w) eqn:Hlocked; [|lia]. simplify_eq/=.
    split; [split|]; frame_invariant.
    + by apply Hpend.
    + by exists new.
Qed.

Lemma work_left_spawn calls : work_left (spawn calls) = (7 * length calls)%nat.
Proof.
  unfold work_left, spawn. induction calls as [|c calls IH]; [done|].
  rewrite fmap_cons. simpl in *. lia.
Qed.

(** Every reachable state satisfies the invariant, and each step runs one
    of the seven statements of some call. *)
Lemma invariant_nsteps w0 calls n w threads :
  healthy w0 → locked w0 = false → Forall (λ c, int64 c.2) calls →
  nsteps step n (w0, spawn calls) (w, threads) →
  invariant w0 calls w threads ∧ (n + work_left threads = 7 * length calls)%nat.
Proof.
  intros Hw Hlock Hcounts. revert w threads.
  induction n as [|n IH]; intros w threads Hsteps.
  - inversion Hsteps; subst.
    split; [by apply invariant_spawn|apply work_left_spawn].
  - apply nsteps_inv_r in Hsteps as ([w1 threads1] & Hsteps & Hstep).
    destruct (IH _ _ Hsteps) as [Hinv Hwork].
    destruct (invariant_step _ _ _ _ _ _ Hinv Hstep) as [Hinv' Hwork'].
    split; [done|lia].
Qed.

Lemma count_pc_pos f threads :
  (0 < count_pc f threads)%nat →
  ∃ i t, threads !! i = Some t ∧ f (at_pc t) = true.
Proof.
  unfold count_pc. intros Hpos.
  destruct (filter _ threads) as [|t ts] eqn:Hfilter; [simpl in Hpos; lia|].
  assert (t ∈ filter (λ t, f (at_pc t) = true) threads) as Ht.
  { rewrite Hfilter. apply list_elem_of_here. }
  apply list_elem_of_filter in Ht as [Hf (i & Hi)%list_elem_of_lookup].
  by exists i, t.
Qed.

Lemma count_pc_zero f threads t :
  count_pc f threads = 0%nat → t ∈ threads → f (at_pc t) = false.
Proof.
  unfold count_pc. intros Hzero%length_zero_iff_nil Ht.
  destruct (f (at_pc t)) eqn:Hf; [|done].
  assert (t ∈ filter (λ t, f (at_pc t) = true) threads) as Hin
    by by apply list_elem_of_filter.
  rewrite Hzero in Hin. by apply elem_of_nil in Hin.
Qed.

Lemma work_left_pos threads :
  (0 < work_left threads)%nat →
  ∃ i t, threads !! i = Some t ∧ (0 < remaining (at_pc t))%nat.
Proof.
  unfold work_left. induction threads as [|t threads IH]; simpl; [lia|].
  intros Hpos. destruct (decide (0 < remaining (at_pc t))%nat) as [Ht|Ht].
  - by exists 0%nat, t.
  - destruct IH as (i & t' & Hi & Ht'); [lia|]. by exists (S i), t'.
Qed.

Lemma work_left_zero threads :
  work_left threads = 0%nat → Forall pending_ok threads →
  Forall (λ t, at_pc t = Finished) threads.
Proof.
  unfold work_left. induction threads as [|t threads IH]; simpl; [done|].
  intros Hzero [Ht Hts]%Forall_cons. apply Forall_cons. split.
  - unfold pending_ok in Ht. destruct (at_pc t); simpl in Hzero; try done; lia.
  - apply IH; [lia|done].
Qed.

(** No deadlock: while a call is unfinished, some thread can run. *)
Lemma step_possible w0 calls w threads :
  invariant w0 calls w threads → (0 < work_left threads)%nat →
  ∃ s', step (w, threads) s'.
Proof.
  intros [_ Hcounts Hh Hlock _ _ _] Hwork.
  assert (∀ i t, threads !! i = Some t →
            running (at_pc t) = true →
            (∃ p w', statement (call_name t) (call_count t) (at_pc t)
                       (set_clock (clock w) w) = (Returned p, w')) →
            ∃ s', step (w, threads) s') as Hrun.
  { intros i t Hi Hr (p & w' & Hst). eexists. exists i, (clock w).
    unfold exec. simpl. by rewrite Hi, Hr, Hst. }
  assert (∀ i t, threads !! i = Some t → int64 (call_count t)) as Hfits.
  { intros i t Hi. apply (proj1 (Forall_forall _ _) Hcounts).
    by eapply list_elem_of_lookup_2. }
  unfold statement, bind, time_time, lock_acquire, connect, execute_insert,
    commit, close, lock_release, sqlite3_call, raise, ret in Hrun.
  destruct (locked w) eqn:Hlocked.
  - (* the lock is held: its holder can run *)
    destruct (count_pc_pos holding threads) as (i & t & Hi & Ht); [lia|].
    pose proof (Hfits i t Hi) as Hfit.
    apply (Hrun i t Hi); destruct (at_pc t); try done;
      simpl; rewrite ?decide_True by done; simpl;
      rewrite ?Hh, ?Hlocked; by eexists _, _.
  - (* the lock is free: any unfinished thread can run *)
    destruct (work_left_pos threads Hwork) as (i & t & Hi & Ht).
    pose proof (count_pc_zero holding threads t Hlock
                  (list_elem_of_lookup_2 _ _ _ Hi)) as Hfree.
    apply (Hrun i t Hi); destruct (at_pc t); try done; simpl in Ht; try lia;
      simpl; rewrite ?Hh, ?Hlocked; by eexists _, _.
Qed.

(** A schedule that runs is a sequence of steps. *)
Lemma run_schedule_nsteps schedule s s' :
  run_schedule schedule s = Some s' → nsteps step (length schedule) s s'.
Proof.
  revert s. induction schedule as [|[i now] schedule IH]; intros s Hrun;
    simpl in Hrun.
  - injection Hrun as <-. constructor.
  - destruct (exec i now s) as [s1|] eqn:Hexec; [|done].
    apply nsteps_l with s1; [by exists i, now|by apply IH].
Qed.

Example run_second_overtakes :
  run_schedule second_overtakes (boot 1100, spawn two_calls) =
  Some (set_clock 1104 (set_table [Row.mk "b" 1100 1; Row.mk "a" 1100 1] (boot 1100)),
        [ {| call_name := "a"; call_count := 1; at_pc := Finished |};
          {| call_name := "b"; call_count := 1; at_pc := Finished |} ]).
Proof. reflexivity. Qed.

(** A thread that finds the lock held cannot be scheduled. *)
Example acquire_waits :
  run_schedule [(0%nat, 1100); (0%nat, 1100); (1%nat, 1100); (1%nat, 1100)]
    (boot 1100, spawn two_calls) = None.
Proof. reflexivity. Qed.

Lemma count_pc_finished f threads :
  f Finished = false → Forall (λ t, at_pc t = Finished) threads →
  count_pc f threads = 0%nat.
Proof.
  intros Hf. unfold count_pc. induction 1 as [|t threads Ht _ IH]; [done|].
  rewrite filter_cons, decide_False; [done|]. rewrite Ht, Hf. done.
Qed.

Lemma committed_finished threads :
  Forall (λ t, at_pc t = Finished) threads →
  filter (λ t, committed (at_pc t) = true) threads = threads.
Proof.
  induction 1 as [|t threads Ht _ IH]; [done|].
  rewrite filter_cons, decide_True, IH; [done|]. by rewrite Ht.
Qed.

Lemma connected_holding threads :
  (count_pc connected threads ≤ count_pc holding threads)%nat.
Proof.
  unfold count_pc. induction threads as [|t threads IH]; [done|].
  rewrite !filter_cons. destruct (at_pc t); simpl; lia.
Qed.

(** C9: [N] threads call [increment] concurrently, names and counts as in
    [calls], each count one that the column holds; the statements of the
    calls interleave in any order and at any times of the clock.  At most
    one thread is ever between [acquire] and [release], so at most one
    transaction is open; the threads never deadlock and all return after
    [7 * N] steps; then exactly [N] rows have been added to the table, one
    per call, and [get_names] lists the name of every call. *)
Theorem concurrent_increments_all_stored w0 calls n w threads :
  healthy w0 → locked w0 = false →
  Forall (λ c, int64 c.2) calls →
  nsteps step n (w0, spawn calls) (w, threads) →
  (n ≤ 7 * length calls)%nat ∧
  (count_pc connected threads ≤ count_pc holding threads ≤ 1)%nat ∧
  ((n < 7 * length calls)%nat → ∃ s', step (w, threads) s') ∧
  (n = (7 * length calls)%nat →
     Forall (λ t, at_pc t = Finished) threads ∧
     locked w = false ∧
     ∃ new,
       table w = table w0 ++ new ∧
       length new = length calls ∧
       call_in <$> new ≡ₚ calls ∧
       ∃ names,
         get_names w = (Returned names, w) ∧
         ∀ c, c ∈ calls → c.1 ∈ names).
Proof.
  intros Hw Hlock Hcounts Hsteps.
  destruct (invariant_nsteps _ _ _ _ _ Hw Hlock Hcounts Hsteps) as [Hinv Hwork].
  split; [lia|]. split; [|split].
  - split; [apply connected_holding|].
    rewrite (inv_lock _ _ _ _ Hinv). destruct (locked w); lia.
  - intros Hn. apply (step_possible w0 calls); [done|lia].
  - intros Hn.
    assert (Forall (λ t, at_pc t = Finished) threads) as Hfin.
    { apply work_left_zero; [lia|apply (inv_pending _ _ _ _ Hinv)]. }
    destruct Hinv as [Hcalls _ Hh Hl _ _ (new & Htab & Hperm)].
    rewrite committed_finished, Hcalls in Hperm by done.
    split; [done|]. split.
    { rewrite count_pc_finished in Hl by done. by destruct (locked w). }
    exists new. split; [done|]. split.
    { by rewrite <- (length_fmap call_in), Hperm. }
    split; [done|].
    exists (select_names (table w)). split; [by apply get_names_healthy|].
    intros c Hc. rewrite <- Hperm in Hc.
    apply list_elem_of_fmap in Hc as (r & -> & Hr).
    apply elem_of_select_names. exists r. split; [|done].
    rewrite Htab. apply elem_of_app. by right.
Qed.

Lemma concurrent_increments_all_stored_witness :
  let w := set_clock 1104
             (set_table [Row.mk "b" 1100 1; Row.mk "a" 1100 1] (boot 1100)) in
  let threads := [ {| call_name := "a"; call_count := 1; at_pc := Finished |};
                   {| call_name := "b"; call_count := 1; at_pc := Finished |} ] in
  healthy (boot 1100) ∧ locked (boot 1100) = false ∧
  Forall (λ c, int64 c.2) two_calls ∧
  nsteps step 14 (boot 1100, spawn two_calls) (w, threads) ∧
  (14 ≤ 7 * length two_calls)%nat ∧
  (count_pc connected threads ≤ count_pc holding threads ≤ 1)%nat ∧
  ((14 < 7 * length two_calls)%nat → ∃ s', step (w, threads) s') ∧
  (14%nat = (7 * length two_calls)%nat →
     Forall (λ t, at_pc t = Finished) threads ∧
     locked w = false ∧
     ∃ new,
       table w = table (boot 1100) ++ new ∧
       length new = length two_calls ∧
       call_in <$> new ≡ₚ two_calls ∧
       ∃ names,
         get_names w = (Returned names, w) ∧
         ∀ c, c ∈ two_calls → c.1 ∈ names).
Proof.
  assert (nsteps step 14 (boot 1100, spawn two_calls)
            (set_clock 1104
               (set_table [Row.mk "b" 1100 1; Row.mk "a" 1100 1] (boot 1100)),
             [ {| call_name := "a"; call_count := 1; at_pc := Finished |};
               {| call_name := "b"; call_count := 1; at_pc := Finished |} ]))
    as Hsteps.
  { apply (run_schedule_nsteps second_overtakes). reflexivity. }
  assert (Forall (λ c, int64 c.2) two_calls) as Hcounts.
  { unfold two_calls, int64. repeat constructor; simpl; lia. }
  split; [reflexivity|]. split; [reflexivity|]. split; [exact Hcounts|].
  split; [exact Hsteps|].
  apply (concurrent_increments_all_stored (boot 1100) two_calls 14);
    [reflexivity|reflexivity|exact Hcounts|exact Hsteps].
Defined.

(** In the same model a call whose count does not fit ends its thread at
    the [INSERT], with the lock held: the other caller then waits for ever. *)
Example overflow_in_a_thread :
  run_schedule [(0%nat, 1100); (0%nat, 1100); (0%nat, 1100); (0%nat, 1100);
                (1%nat, 1101)]
    (boot 1100, spawn [("a", 2 ^ 63); ("b", 1)]) =
  Some (set_clock 1101 (set_locked true (set_connections 1 (boot 1100))),
        [ {| call_name := "a"; call_count := 2 ^ 63; at_pc := Crashed OverflowError |};
          {| call_name := "b"; call_count := 1; at_pc := AtAcquire 1101 |} ]).
Proof. reflexivity. Qed.

(** * Further properties of the code *)

(** ** [increment] when storage calls may raise *)

Lemma increment_locked name count w :
  locked w = true → increment name count w = (Blocked, w).
Proof.
  intros Hlocked. unfold increment, bind, time_time, lock_acquire. simpl.
  by rewrite Hlocked.
Qed.

(** X1: [increment] is all or nothing.  Called with the lock free, whatever
    storage call raises, it never waits; when it returns, exactly its row
    has been appended to the table; when it raises, the table is as before. *)
Theorem increment_all_or_nothing name count w :
  locked w = false →
  ∃ o w',
    increment name count w = (o, w') ∧
    match o with
    | Returned _ => table w' = table w ++ [Row.mk name (clock w) count]
    | Raised _ => table w' = table w
    | Blocked => False
    end.
Proof.
  intros Hlock. destruct w as [now rows lk conns fs]. simpl in Hlock. subst lk.
  run_methods fs; by eexists _, _.
Qed.

Lemma increment_all_or_nothing_witness :
  locked (set_faults [false; false; true] demo) = false ∧
  ∃ o w',
    increment "a" 2 (set_faults [false; false; true] demo) = (o, w') ∧
    match o with
    | Returned _ =>
        table w' = table (set_faults [false; false; true] demo)
                   ++ [Row.mk "a" (clock (set_faults [false; false; true] demo)) 2]
    | Raised _ => table w' = table (set_faults [false; false; true] demo)
    | Blocked => False
    end.
Proof.
  split; [reflexivity|].
  apply (increment_all_or_nothing "a" 2 (set_faults [false; false; true] demo)).
  reflexivity.
Defined.

(** X2: a failed [increment] blocks all later ones.  If [increment], called
    with the lock free, raises, then every later [increment], with any
    arguments, at any time and whatever the storage does, waits for ever and
    stores nothing. *)
Theorem increment_failure_blocks_writers name count w e w' :
  locked w = false →
  increment name count w = (Raised e, w') →
  ∀ name' count' now' fs',
    increment name' count' (set_faults fs' (set_clock now' w')) =
    (Blocked, set_faults fs' (set_clock now' w')).
Proof.
  intros Hlock Hraised name' count' now' fs'. apply increment_locked.
  destruct w as [now rows lk conns fs]. simpl in Hlock. subst lk.
  revert Hraised. run_methods fs; by intros [= _ <-].
Qed.

Lemma increment_failure_blocks_writers_witness :
  locked (set_faults [false; true] demo) = false ∧
  increment "a" 1 (set_faults [false; true] demo) =
    (Raised StorageError, set_locked true (set_connections 1 demo)) ∧
  ∀ name' count' now' fs',
    increment name' count'
      (set_faults fs' (set_clock now' (set_locked true (set_connections 1 demo)))) =
    (Blocked, set_faults fs' (set_clock now' (set_locked true (set_connections 1 demo)))).
Proof.
  split; [reflexivity|]. split; [reflexivity|].
  apply (increment_failure_blocks_writers "a" 1 (set_faults [false; true] demo)
           StorageError); reflexivity.
Defined.

(** ** What the answers of [get_data] and [get_names] depend on *)

Lemma events_in_Permutation table table' name now b :
  table ≡ₚ table' → events_in table name now b ≡ₚ events_in table' name now b.
Proof. intros Hperm. unfold events_in. by rewrite Hperm. Qed.

Lemma window_series_Permutation table table' name now :
  table ≡ₚ table' → window_series table name now = window_series table' name now.
Proof.
  intros Hperm. unfold window_series. apply list_fmap_ext. intros _ k _.
  simpl. f_equal. apply sum_counts_Permutation. by apply events_in_Permutation.
Qed.

(** Two tables with the same names have the same sorted list of names. *)
Lemma select_names_ext table table' :
  (∀ n, (∃ r, r ∈ table ∧ Row.name r = n) ↔ (∃ r, r ∈ table' ∧ Row.name r = n)) →
  select_names table = select_names table'.
Proof.
  intros Hsame. apply (StronglySorted_unique String.le).
  - apply Sorted_select_names.
  - apply Sorted_select_names.
  - apply NoDup_Permutation; [apply NoDup_select_names..|].
    intros n. by rewrite !elem_of_select_names.
Qed.

(** X3: the order of the rows in the table does not show.  Two healthy
    worlds at the same time whose tables hold the same rows, in any order,
    give the same series for every name and the same list of names. *)
Theorem answers_ignore_row_order name w w' :
  healthy w → healthy w' → clock w' = clock w → table w' ≡ₚ table w →
  (get_data name w').1 = (get_data name w).1 ∧
  (get_names w').1 = (get_names w).1.
Proof.
  intros Hw Hw' Hclock Hperm.
  rewrite !get_data_healthy, !get_names_healthy by done. simpl.
  rewrite Hclock. split; f_equal.
  - by apply window_series_Permutation.
  - apply select_names_ext. intros n.
    split; intros (r & Hr & Hn); exists r; split; try done;
      [by rewrite <- Hperm|by rewrite Hperm].
Qed.

Lemma answers_ignore_row_order_witness :
  let w' := set_table [Row.mk "a" 1010 1; Row.mk "a" 1000 1; Row.mk "a" 1020 1;
                       Row.mk "b" 1030 1] (boot 1100) in
  healthy demo ∧ healthy w' ∧ clock w' = clock demo ∧ table w' ≡ₚ table demo ∧
  (get_data "a" w').1 = (get_data "a" demo).1 ∧
  (get_names w').1 = (get_names demo).1.
Proof.
  assert (table (set_table [Row.mk "a" 1010 1; Row.mk "a" 1000 1; Row.mk "a" 1020 1;
                            Row.mk "b" 1030 1] (boot 1100)) ≡ₚ table demo) as Hperm.
  { simpl. apply perm_swap. }
  split; [reflexivity|]. split; [reflexivity|]. split; [reflexivity|].
  split; [exact Hperm|].
  apply (answers_ignore_row_order "a" demo); [reflexivity..|exact Hperm].
Defined.

(** X4: metrics do not mix.  An [increment] of another name, with a count
    that the column holds, leaves the series of [x] as it was. *)
Theorem increment_of_other_name x y c w :
  healthy w → locked w = false → y ≠ x →
  -9223372036854775808 ≤ c ≤ 9223372036854775807 →
  ∃ series w',
    get_data x w = (Returned series, w) ∧
    (increment y c ;; get_data x) w = (Returned series, w').
Proof.
  intros Hw Hlock Hxy Hc.
  exists (window_series (table w) x (clock w)),
    (set_table (table w ++ [Row.mk y (clock w) c]) w).
  split; [by apply get_data_healthy|].
  unfold bind. rewrite increment_healthy, get_data_healthy by done. simpl.
  rewrite window_series_snoc_out; [done|]. by intros (? & _).
Qed.

Lemma increment_of_other_name_witness :
  healthy demo ∧ locked demo = false ∧ "b" ≠ "a" ∧
  -9223372036854775808 ≤ 4 ≤ 9223372036854775807 ∧
  ∃ series w',
    get_data "a" demo = (Returned series, demo) ∧
    (increment "b" 4 ;; get_data "a") demo = (Returned series, w').
Proof.
  split; [reflexivity|]. split; [reflexivity|]. split; [discriminate|].
  split; [lia|].
  apply (increment_of_other_name "a" "b" 4 demo);
    [reflexivity|reflexivity|discriminate|lia].
Defined.

(** X5: a name is listed as soon as it has been recorded.  After
    [increment n c], with a count that the column holds, [get_names]
    returns the names listed before together with [n], and the very same
    list when [n] was already there. *)
Theorem increment_then_get_names n c w :
  healthy w → locked w = false →
  -9223372036854775808 ≤ c ≤ 9223372036854775807 →
  ∃ before after w',
    get_names w = (Returned before, w) ∧
    (increment n c ;; get_names) w = (Returned after, w') ∧
    (∀ m, m ∈ after ↔ m = n ∨ m ∈ before) ∧
    (n ∈ before → after = before).
Proof.
  intros Hw Hlock Hc.
  set (w' := set_table (table w ++ [Row.mk n (clock w) c]) w).
  exists (select_names (table w)), (select_names (table w')), w'.
  split; [by apply get_names_healthy|]. split.
  { unfold bind. rewrite increment_healthy by done. by apply get_names_healthy. }
  assert (∀ m, (∃ r, r ∈ table w' ∧ Row.name r = m) ↔
               m = n ∨ ∃ r, r ∈ table w ∧ Row.name r = m) as Hrows.
  { intros m. simpl. split.
    - intros (r & [Hr| ->%list_elem_of_singleton]%elem_of_app & Hm);
        [right; by exists r|by left].
    - intros [->|(r & Hr & Hm)].
      + eexists. split; [apply elem_of_app; right; apply list_elem_of_singleton; done|done].
      + exists r. split; [|done]. apply elem_of_app. by left. }
  split.
  - intros m. by rewrite !elem_of_select_names, Hrows.
  - intros Hn%elem_of_select_names. apply select_names_ext. intros m.
    rewrite Hrows. split; [|by right]. by intros [->|?].
Qed.

Lemma increment_then_get_names_witness :
  healthy demo ∧ locked demo = false ∧
  -9223372036854775808 ≤ 1 ≤ 9223372036854775807 ∧
  ∃ before after w',
    get_names demo = (Returned before, demo) ∧
    (increment "c" 1 ;; get_names) demo = (Returned after, w') ∧
    (∀ m, m ∈ after ↔ m = "c" ∨ m ∈ before) ∧
    ("c" ∈ before → after = before).
Proof.
  split; [reflexivity|]. split; [reflexivity|]. split; [lia|].
  apply (increment_then_get_names "c" 1 demo); [reflexivity|reflexivity|lia].
Defined.

Lemma events_in_nil table name now b :
  (∀ r, r ∈ table → Row.name r = name →
        ¬ (now - 86400 ≤ Row.timestamp r ∧ b ≤ Row.timestamp r < b + 300)) →
  events_in table name now b = [].
Proof.
  unfold events_in. induction table as [|r table IH]; intros Hout; [done|].
  rewrite filter_cons, decide_False.
  - apply IH. intros r' Hr'. apply Hout. by apply list_elem_of_further.
  - intros (Hname & Hstart & Hb).
    by apply (Hout r (list_elem_of_here _ _) Hname).
Qed.

(** X6: a name outlives its data.  A metric whose events are all older than
    24 hours is still listed by [get_names], while [get_data] shows it with
    289 empty buckets, as it does a name never recorded. *)
Theorem old_metric_listed_but_empty x w :
  healthy w →
  (∃ r, r ∈ table w ∧ Row.name r = x) →
  (∀ r, r ∈ table w → Row.name r = x → Row.timestamp r < clock w - 86400) →
  ∃ names series,
    get_names w = (Returned names, w) ∧ x ∈ names ∧
    get_data x w = (Returned series, w) ∧
    length series = 289%nat ∧
    ∀ b, b ∈ series → Bucket.count b = 0.
Proof.
  intros Hw Hsome Hold. eexists _, _.
  split; [by apply get_names_healthy|].
  split; [by apply elem_of_select_names|].
  split; [by apply get_data_healthy|].
  split; [apply length_window_series|].
  intros b [_ ->]%elem_of_window_series.
  rewrite events_in_nil; [done|].
  intros r Hr Hname [Hstart _]. specialize (Hold r Hr Hname). lia.
Qed.

Lemma old_metric_listed_but_empty_witness :
  let w := set_clock 100000 demo in
  healthy w ∧
  (∃ r, r ∈ table w ∧ Row.name r = "a") ∧
  (∀ r, r ∈ table w → Row.name r = "a" → Row.timestamp r < clock w - 86400) ∧
  ∃ names series,
    get_names w = (Returned names, w) ∧ "a" ∈ names ∧
    get_data "a" w = (Returned series, w) ∧
    length series = 289%nat ∧
    ∀ b, b ∈ series → Bucket.count b = 0.
Proof.
  assert (∃ r, r ∈ table (set_clock 100000 demo) ∧ Row.name r = "a") as Hsome.
  { exists (Row.mk "a" 1000 1). split; [apply list_elem_of_here|reflexivity]. }
  assert (∀ r, r ∈ table (set_clock 100000 demo) → Row.name r = "a" →
               Row.timestamp r < clock (set_clock 100000 demo) - 86400) as Hold.
  { intros r Hr _. simpl in Hr.
    repeat (apply elem_of_cons in Hr as [->|Hr]; [simpl; lia|]).
    by apply elem_of_nil in Hr. }
  split; [reflexivity|]. split; [exact Hsome|]. split; [exact Hold|].
  apply (old_metric_listed_but_empty "a" (set_clock 100000 demo));
    [reflexivity|exact Hsome|exact Hold].
Defined.

(** X7: history is stable.  With the table unchanged, the series asked for
    300 seconds later is the earlier one moved by one place: its entry [i]
    is the earlier entry [i + 1], for every place but the oldest. *)
Theorem series_moves_with_the_clock name w (i : nat) :
  healthy w → (1 ≤ i < 288)%nat →
  ∃ earlier later,
    get_data name w = (Returned earlier, w) ∧
    get_data name (set_clock (clock w + 300) w)
      = (Returned later, set_clock (clock w + 300) w) ∧
    later !! i = earlier !! S i.
Proof.
  intros Hw Hi. eexists _, _.
  split; [by apply get_data_healthy|].
  split; [by apply get_data_healthy|].
  rewrite !lookup_window_series by lia. cbn [clock table set_clock].
  replace ((clock w + 300 - 86400) / 300 * 300 + 300 * Z.of_nat i)
    with ((clock w - 86400) / 300 * 300 + 300 * Z.of_nat (S i)) by div_lia.
  do 3 f_equal. unfold events_in. apply list_filter_iff. intros r.
  split; intros (Hname & Hstart & Hb); (split; [done|split; [div_lia|done]]).
Qed.

Lemma series_moves_with_the_clock_witness :
  healthy demo ∧ (1 ≤ 287 < 288)%nat ∧
  ∃ earlier later,
    get_data "a" demo = (Returned earlier, demo) ∧
    get_data "a" (set_clock (clock demo + 300) demo)
      = (Returned later, set_clock (clock demo + 300) demo) ∧
    later !! 287%nat = earlier !! 288%nat.
Proof.
  split; [reflexivity|]. split; [lia|].
  apply (series_moves_with_the_clock "a" demo 287); [reflexivity|lia].
Defined.

(** The oldest bucket is cut at 24 hours: an event recorded at 1250, shown
    in bucket 1200 at time 87500, is no longer counted at time 87800, when
    bucket 1200 has become the oldest. *)
Example oldest_bucket_is_partial :
  let w := set_table [Row.mk "a" 1250 1] (boot 87500) in
  ∃ earlier later,
    (get_data "a" w).1 = Returned earlier ∧
    (get_data "a" (set_clock 87800 w)).1 = Returned later ∧
    earlier !! 1%nat = Some (Bucket.mk 1200 1) ∧
    later !! 0%nat = Some (Bucket.mk 1200 0).
Proof. eexists _, _. repeat split; vm_compute; reflexivity. Qed.

(** ** The HTTP handler *)

Lemma split_nonempty sep s : split sep s ≠ [].
Proof.
  destruct s as [|c s]; simpl; [done|].
  destruct (Ascii.eqb c sep); [done|]. by destruct (split sep s).
Qed.

(** Splitting at a separator splits the two sides. *)
Lemma split_app sep s1 s2 :
  split sep (s1 +:+ String sep s2) = split sep s1 ++ split sep s2.
Proof.
  induction s1 as [|c s1 IH]; simpl.
  - by rewrite Ascii.eqb_refl.
  - rewrite IH. destruct (Ascii.eqb c sep); [done|].
    pose proof (split_nonempty sep s1). by destruct (split sep s1).
Qed.

Lemma split_slash_free name : slash_free name = true → split slash name = [name].
Proof.
  induction name as [|c name IH]; simpl; [done|].
  intros [Hc Hname]%andb_true_iff. apply negb_true_iff in Hc.
  by rewrite Hc, IH.
Qed.

Lemma split_pieces_slash_free path :
  Forall (λ piece, slash_free piece = true) (split slash path).
Proof.
  induction path as [|c path IH]; simpl; [by repeat constructor|].
  destruct (Ascii.eqb c slash) eqn:Hc; [by constructor|].
  pose proof (split_nonempty slash path).
  destruct (split slash path) as [|piece pieces]; [done|].
  apply Forall_cons in IH as [Hpiece Hpieces].
  constructor; [|done]. simpl. by rewrite Hc, Hpiece.
Qed.

Lemma last_segment_slash_free path : slash_free (last_segment path) = true.
Proof.
  unfold last_segment. pose proof (split_pieces_slash_free path) as Hpieces.
  destruct (last (split slash path)) as [name|] eqn:Hlast; [|done].
  apply last_Some_elem_of in Hlast. simpl.
  by apply (proj1 (Forall_forall _ _) Hpieces).
Qed.

Lemma last_segment_app dir name :
  slash_free name = true → last_segment (dir +:+ String slash name) = name.
Proof.
  intros Hname. unfold last_segment.
  by rewrite split_app, (split_slash_free name), last_snoc.
Qed.

(** X8: the data route serves the last segment of the path.  For a path
    that starts with [/api/data/], the handler answers with [get_data] of
    what follows the last ["/"]: [/api/data/<name>] serves [name], and so
    does [/api/data/<anything>/<name>]. *)
Theorem do_GET_serves_last_segment dir name w :
  slash_free name = true →
  String.prefix "/api/data/" (dir +:+ String slash name) = true →
  do_GET (dir +:+ String slash name) w =
  (data <- get_data name ;; ret (Response 200 "application/json" (Data data))) w.
Proof.
  intros Hname Hprefix. unfold do_GET.
  destruct (decide (dir +:+ String slash name = "/")) as [Hroot|_].
  { rewrite Hroot in Hprefix. discriminate. }
  destruct (decide (dir +:+ String slash name = "/api/names")) as [Hnames|_].
  { rewrite Hnames in Hprefix. discriminate. }
  by rewrite Hprefix, last_segment_app.
Qed.

Lemma do_GET_serves_last_segment_witness :
  slash_free "a" = true ∧
  String.prefix "/api/data/" ("/api/data/old" +:+ String slash "a") = true ∧
  do_GET ("/api/data/old" +:+ String slash "a") demo =
  (data <- get_data "a" ;; ret (Response 200 "application/json" (Data data))) demo.
Proof.
  split; [reflexivity|]. split; [reflexivity|].
  apply (do_GET_serves_last_segment "/api/data/old" "a" demo); reflexivity.
Defined.

(** X9: a metric whose name contains ["/"] cannot be fetched.  Whatever the
    path, a data response of the handler is the series of a name without
    ["/"]. *)
Theorem do_GET_data_of_slash_free_name path w status content_type data w' :
  do_GET path w = (Returned (Response status content_type (Data data)), w') →
  ∃ name, slash_free name = true ∧ get_data name w = (Returned data, w').
Proof.
  unfold do_GET, bind, ret. intros Hget.
  destruct (decide (path = "/")); [done|].
  destruct (decide (path = "/api/names")).
  { destruct (get_names w) as [[names| |] w1]; done. }
  destruct (String.prefix "/api/data/" path); [|done].
  exists (last_segment path). split; [apply last_segment_slash_free|].
  destruct (get_data (last_segment path) w) as [[series| |] w1]; [|done..].
  by injection Hget as _ _ -> ->.
Qed.

Lemma do_GET_data_of_slash_free_name_witness :
  do_GET "/api/data/x/a" demo =
    (Returned (Response 200 "application/json"
                 (Data (window_series (table demo) "a" (clock demo)))), demo) ∧
  ∃ name, slash_free name = true ∧
    get_data name demo =
      (Returned (window_series (table demo) "a" (clock demo)), demo).
Proof.
  assert (do_GET "/api/data/x/a" demo =
    (Returned (Response 200 "application/json"
                 (Data (window_series (table demo) "a" (clock demo)))), demo)) as Hget.
  { vm_compute. reflexivity. }
  split; [exact Hget|].
  apply (do_GET_data_of_slash_free_name "/api/data/x/a" demo 200 "application/json"
           (window_series (table demo) "a" (clock demo)) demo).
  exact Hget.
Defined.

(** X10: reading never writes.  [get_names], [get_data] and the handler
    leave the table and the lock as they are, whether or not a storage call
    raises. *)
Theorem reads_never_write path name w :
  table (get_names w).2 = table w ∧ locked (get_names w).2 = locked w ∧
  table (get_data name w).2 = table w ∧ locked (get_data name w).2 = locked w ∧
  table (do_GET path w).2 = table w ∧ locked (do_GET path w).2 = locked w.
Proof.
  assert (∀ name, table (get_data name w).2 = table w
                  ∧ locked (get_data name w).2 = locked w) as Hdata.
  { intros name'. destruct w as [now rows lk conns fs]. by run_methods fs. }
  assert (table (get_names w).2 = table w ∧ locked (get_names w).2 = locked w)
    as Hnames.
  { destruct w as [now rows lk conns fs]. by run_methods fs. }
  split; [apply Hnames|]. split; [apply Hnames|].
  split; [apply Hdata|]. split; [apply Hdata|].
  unfold do_GET, bind, ret.
  destruct (decide (path = "/")); [done|].
  destruct (decide (path = "/api/names")).
  { destruct (get_names w) as [[names| |] w1]; apply Hnames. }
  destruct (String.prefix "/api/data/" path); [|done].
  specialize (Hdata (last_segment path)).
  destruct (get_data (last_segment path) w) as [[series| |] w1]; apply Hdata.
Qed.

(** ** The statistics of the dashboard *)


Lemma number_exact z : exact z → number z = Some z.
Proof. intros Hz. unfold number. by rewrite decide_True. Qed.

Lemma total_abs_nonneg series : 0 ≤ total_abs series.
Proof. induction series; simpl; lia. Qed.

(** What the loop has computed after the entries [data], which start at
    index [i] of an array of length [len], while every value stays in the
    exact range. *)
Lemma stats_loop_total len i data acc t :
  Stats.total acc = Some t → Z.abs t + total_abs data ≤ 9007199254740992 →
  Stats.total (stats_loop len i data acc) = Some (t + total data).
Proof.
  revert i acc t. induction data as [|d data IH]; intros i acc t Ht Hsmall.
  - simpl. rewrite Ht. f_equal. lia.
  - pose proof (total_abs_nonneg data). simpl in Hsmall. simpl stats_loop.
    rewrite (IH _ _ (t + Bucket.count d)).
    + simpl. f_equal. lia.
    + simpl. rewrite Ht. simpl.
      rewrite (number_exact (Bucket.count d)) by (unfold exact; lia). simpl.
      apply number_exact. unfold exact. lia.
    + lia.
Qed.

Lemma stats_loop_recent len i data acc r :
  Stats.recent acc = Some r → Z.abs r + total_abs data ≤ 9007199254740992 →
  Stats.recent (stats_loop len i data acc) =
  Some (r + total (drop (len - 12 - i) data)).
Proof.
  revert i acc r. induction data as [|d data IH]; intros i acc r Hr Hsmall.
  - rewrite drop_nil. simpl. rewrite Hr. f_equal. lia.
  - pose proof (total_abs_nonneg data). simpl in Hsmall. simpl stats_loop.
    destruct (Z.leb_spec (Z.of_nat len - 12) (Z.of_nat i)) as [Hin|Hout].
    + rewrite (IH _ _ (r + Bucket.count d)).
      * replace (len - 12 - i)%nat with 0%nat by lia.
        replace (len - 12 - S i)%nat with 0%nat by lia.
        rewrite !drop_0. simpl. f_equal. lia.
      * simpl. rewrite (proj2 (Z.leb_le _ _)) by done. rewrite Hr. simpl.
        rewrite (number_exact (Bucket.count d)) by (unfold exact; lia). simpl.
        apply number_exact. unfold exact. lia.
      * lia.
    + rewrite (IH _ _ r).
      * replace (len - 12 - i)%nat with (S (len - 12 - S i)) by lia. done.
      * simpl. by rewrite (proj2 (Z.leb_gt _ _)) by done.
      * lia.
Qed.

Lemma stats_loop_peak len i data acc p :
  Stats.peak acc = Some p →
  (∀ d, d ∈ data → exact (Bucket.count d)) →
  ∃ q, Stats.peak (stats_loop len i data acc) = Some q ∧
       p ≤ q ∧
       (∀ d, d ∈ data → Bucket.count d ≤ q) ∧
       (q = p ∨ ∃ d, d ∈ data ∧ Bucket.count d = q).
Proof.
  revert i acc p. induction data as [|d data IH]; intros i acc p Hp Hexact.
  - exists p. simpl. split; [done|]. split; [lia|]. split; [|by left].
    by intros d ?%elem_of_nil.
  - simpl stats_loop.
    destruct (IH (S i) (stats_turn len i acc d)
                (if p <? Bucket.count d then Bucket.count d else p))
      as (q & Hq & Hle & Hall & Hsome).
    + simpl. rewrite Hp. simpl.
      by rewrite (number_exact (Bucket.count d))
        by (apply Hexact, list_elem_of_here).
    + intros d' Hd'. apply Hexact. by apply list_elem_of_further.
    + exists q. split; [done|].
      destruct (Z.ltb_spec p (Bucket.count d)) as [Hlt|Hge].
      * split; [lia|]. split.
        -- intros d' [->|Hd']%elem_of_cons; [lia|by apply Hall].
        -- right. destruct Hsome as [->|(d' & Hd' & <-)].
           ++ exists d. split; [apply list_elem_of_here|done].
           ++ exists d'. split; [by apply list_elem_of_further|done].
      * split; [lia|]. split.
        -- intros d' [->|Hd']%elem_of_cons; [lia|by apply Hall].
        -- destruct Hsome as [->|(d' & Hd' & <-)]; [by left|].
           right. exists d'. split; [by apply list_elem_of_further|done].
Qed.

(** X11: for counts that the script holds exactly (at most 2^53 in absolute
    value), the peak shown is the largest count, but never below zero: it
    bounds every count of the series, it is not negative, and it is either
    0 or the count of some bucket. *)
Theorem stats_peak_is_max data :
  (∀ d, d ∈ data →
        -9007199254740992 ≤ Bucket.count d ≤ 9007199254740992) →
  ∃ peak,
    Stats.peak (stats data) = Some peak ∧
    0 ≤ peak ∧
    (∀ d, d ∈ data → Bucket.count d ≤ peak) ∧
    (peak = 0 ∨ ∃ d, d ∈ data ∧ Bucket.count d = peak).
Proof.
  intros Hexact.
  apply (stats_loop_peak (length data) 0 data
           (Stats.mk (Some 0) (Some 0) (Some 0)) 0); done.
Qed.

Lemma stats_peak_is_max_witness :
  (∀ d, d ∈ [Bucket.mk 0 (-2); Bucket.mk 300 5; Bucket.mk 600 3] →
        -9007199254740992 ≤ Bucket.count d ≤ 9007199254740992) ∧
  ∃ peak,
    Stats.peak (stats [Bucket.mk 0 (-2); Bucket.mk 300 5; Bucket.mk 600 3])
      = Some peak ∧
    0 ≤ peak ∧
    (∀ d, d ∈ [Bucket.mk 0 (-2); Bucket.mk 300 5; Bucket.mk 600 3] →
          Bucket.count d ≤ peak) ∧
    (peak = 0 ∨ ∃ d, d ∈ [Bucket.mk 0 (-2); Bucket.mk 300 5; Bucket.mk 600 3]
                     ∧ Bucket.count d = peak).
Proof.
  assert (∀ d, d ∈ [Bucket.mk 0 (-2); Bucket.mk 300 5; Bucket.mk 600 3] →
               -9007199254740992 ≤ Bucket.count d ≤ 9007199254740992) as Hexact.
  { intros d Hd.
    repeat (apply elem_of_cons in Hd as [->|Hd]; [simpl; lia|]).
    by apply elem_of_nil in Hd. }
  split; [exact Hexact|].
  apply (stats_peak_is_max [Bucket.mk 0 (-2); Bucket.mk 300 5; Bucket.mk 600 3]).
  exact Hexact.
Defined.

(** X12: when the counts of the fetched array add up, in absolute value, to
    at most 2^53, the total shown is the sum of all counts, and "Last Hour"
    is the sum of the last 12 entries of the array, or of all of them when
    there are fewer than 12. *)
Theorem stats_total_and_recent data :
  total_abs data ≤ 9007199254740992 →
  Stats.total (stats data) = Some (total data) ∧
  Stats.recent (stats data) = Some (total (drop (length data - 12) data)).
Proof.
  intros Hsmall. unfold stats.
  rewrite (stats_loop_total _ _ _ _ 0); [|reflexivity|lia].
  rewrite (stats_loop_recent _ _ _ _ 0); [|reflexivity|lia].
  by rewrite Nat.sub_0_r, !Z.add_0_l.
Qed.

Lemma stats_total_and_recent_witness :
  total_abs [Bucket.mk 0 (-2); Bucket.mk 300 5; Bucket.mk 600 3]
    ≤ 9007199254740992 ∧
  Stats.total (stats [Bucket.mk 0 (-2); Bucket.mk 300 5; Bucket.mk 600 3])
    = Some (total [Bucket.mk 0 (-2); Bucket.mk 300 5; Bucket.mk 600 3]) ∧
  Stats.recent (stats [Bucket.mk 0 (-2); Bucket.mk 300 5; Bucket.mk 600 3])
    = Some (total (drop (length [Bucket.mk 0 (-2); Bucket.mk 300 5; Bucket.mk 600 3] - 12)
                     [Bucket.mk 0 (-2); Bucket.mk 300 5; Bucket.mk 600 3])).
Proof.
  split; [simpl; lia|].
  apply (stats_total_and_recent [Bucket.mk 0 (-2); Bucket.mk 300 5; Bucket.mk 600 3]).
  simpl. lia.
Defined.

(** Beyond the exact range the model says nothing: the count 2^53 + 1 is
    not a number of the script, which goes on with a rounded value. *)
Example stats_large_series :
  Stats.total (stats large_series) = None ∧ Stats.peak (stats large_series) = None.
Proof. split; reflexivity. Qed.










(** ** Threads when a storage call raises *)

Example run_first_crashes :
  run_schedule first_crashes (set_faults [false; true] (boot 1100), spawn two_calls)
  = Some crashed ∧
  run_schedule [(1%nat, 1101)] crashed = Some after_crash ∧
  (∀ i now, exec i now after_crash = None).
Proof.
  split; [reflexivity|]. split; [reflexivity|].
  intros [|[|i]] now; reflexivity.
Qed.

Lemma statement_table name count p w o w' :
  statement name count p w = (o, w') → table w `prefix_of` table w'.
Proof.
  destruct w as [now rows lk conns fs].
  unfold statement, bind, time_time, lock_acquire, connect, execute_insert,
    commit, close, lock_release, sqlite3_call, raise, ret.
  destruct p; simpl; try case_decide; try destruct lk;
    try destruct fs as [|[] fs]; simpl;
    intros [= <- <-]; simpl; try done; by eexists.
Qed.

(** X14: the table only grows.  However the statements of concurrent
    [increment] calls interleave, and whichever storage calls raise, the
    rows stored before are still there afterwards, unchanged and in the same
    order, before any new one. *)
Theorem table_only_grows w threads w' threads' :
  rtc step (w, threads) (w', threads') → table w `prefix_of` table w'.
Proof.
  intros Hsteps.
  remember (w, threads) as s eqn:Hs. remember (w', threads') as s' eqn:Hs'.
  revert w threads Hs.
  induction Hsteps as [s|s [w1 threads1] s' (i & now & Hexec) _ IH];
    intros w threads ->.
  - by injection Hs' as -> ->.
  - etrans; [|by apply (IH Hs' w1 threads1)].
    apply exec_inv in Hexec as (l1 & t & l2 & o & w2 & _ & _ & Hst & Ho).
    apply statement_table in Hst. simpl in Hst.
    destruct o; [| |done]; by injection Ho as -> _.
Qed.

Lemma table_only_grows_witness :
  rtc step (boot 1100, spawn two_calls)
    (set_clock 1104 (set_table [Row.mk "b" 1100 1; Row.mk "a" 1100 1] (boot 1100)),
     [ {| call_name := "a"; call_count := 1; at_pc := Finished |};
       {| call_name := "b"; call_count := 1; at_pc := Finished |} ]) ∧
  table (boot 1100) `prefix_of`
    table (set_clock 1104 (set_table [Row.mk "b" 1100 1; Row.mk "a" 1100 1] (boot 1100))).
Proof.
  assert (rtc step (boot 1100, spawn two_calls)
    (set_clock 1104 (set_table [Row.mk "b" 1100 1; Row.mk "a" 1100 1] (boot 1100)),
     [ {| call_name := "a"; call_count := 1; at_pc := Finished |};
       {| call_name := "b"; call_count := 1; at_pc := Finished |} ])) as Hsteps.
  { apply (rtc_nsteps_2 14), (run_schedule_nsteps second_overtakes). reflexivity. }
  split; [exact Hsteps|].
  apply (table_only_grows _ _ _ _ Hsteps).
Defined.

(** One step from a state where the lock is held by no live thread. *)
Lemma step_without_holder w threads w' threads' :
  locked w = true → count_pc holding threads = 0%nat →
  step (w, threads) (w', threads') →
  locked w' = true ∧ count_pc holding threads' = 0%nat ∧
  table w' = table w ∧ count_pc finished threads' = count_pc finished threads.
Proof.
  intros Hlocked Hnone (i & now & Hexec).
  apply exec_inv in Hexec as (l1 & t & l2 & o & w1 & -> & Hrun & Hst & Ho).
  rewrite count_pc_middle in Hnone.
  destruct t as [name count p]. simpl in *.
  unfold statement, bind, time_time, lock_acquire, ret in Hst.
  destruct p; try done; simpl in Hst, Hnone; try lia.
  - (* timestamp = int(time.time()) *)
    injection Hst as <- <-. injection Ho as -> ->.
    rewrite !count_pc_middle. simpl. split; [done|]. split; [lia|done].
  - (* self.lock.acquire() waits *)
    rewrite Hlocked in Hst. by injection Hst as <- <-.
Qed.

(** X15: a writer that fails starves the others.  Once the lock is held and
    no live thread is between [acquire] and [release] (the holder's
    [increment] raised), no interleaving lets any other call return or
    store its row. *)
Theorem crashed_holder_starves_writers w threads w' threads' :
  locked w = true → count_pc holding threads = 0%nat →
  rtc step (w, threads) (w', threads') →
  table w' = table w ∧ locked w' = true ∧
  count_pc finished threads' = count_pc finished threads.
Proof.
  intros Hlocked Hnone Hsteps.
  remember (w, threads) as s eqn:Hs. remember (w', threads') as s' eqn:Hs'.
  revert w threads Hlocked Hnone Hs.
  induction Hsteps as [s|s [w1 threads1] s' Hstep _ IH];
    intros w threads Hlocked Hnone ->.
  - by injection Hs' as -> ->.
  - destruct (step_without_holder _ _ _ _ Hlocked Hnone Hstep)
      as (Hlocked1 & Hnone1 & Htable1 & Hfinished1).
    destruct (IH Hs' w1 threads1 Hlocked1 Hnone1 eq_refl) as (Htable & ? & Hfinished).
    split; [congruence|]. split; [done|congruence].
Qed.

Lemma crashed_holder_starves_writers_witness :
  locked crashed.1 = true ∧ count_pc holding crashed.2 = 0%nat ∧
  rtc step crashed after_crash ∧
  table after_crash.1 = table crashed.1 ∧ locked after_crash.1 = true ∧
  count_pc finished after_crash.2 = count_pc finished crashed.2.
Proof.
  assert (rtc step crashed after_crash) as Hsteps.
  { apply (rtc_nsteps_2 1), (run_schedule_nsteps [(1%nat, 1101)]). reflexivity. }
  split; [reflexivity|]. split; [reflexivity|]. split; [exact Hsteps|].
  apply (crashed_holder_starves_writers crashed.1 crashed.2
           after_crash.1 after_crash.2); [reflexivity|reflexivity|exact Hsteps].
Defined.

(** ** The handler and the lock *)

(** X16: the handler always answers a healthy store, and never waits for
    the lock: whether or not a writer holds it, [do_GET] returns a response
    and leaves the world as it is; the response is the 404 error exactly
    when the path is none of ["/"], ["/api/names"] and the paths that start
    with ["/api/data/"]. *)
Theorem do_GET_always_answers path w :
  healthy w →
  ∃ r,
    do_GET path w = (Returned r, w) ∧
    (r = Error 404 ↔
     path ≠ "/" ∧ path ≠ "/api/names" ∧ String.prefix "/api/data/" path = false).
Proof.
  intros Hw. unfold do_GET, bind, ret.
  destruct (decide (path = "/")) as [Hroot|Hroot].
  { eexists. split; [done|]. split; [done|]. by intros (? & _). }
  destruct (decide (path = "/api/names")) as [Hnames|Hnames].
  { rewrite get_names_healthy by done. eexists. split; [done|].
    split; [done|]. by intros (_ & ? & _). }
  destruct (String.prefix "/api/data/" path) eqn:Hprefix.
  { rewrite get_data_healthy by done. eexists. split; [done|].
    split; [done|]. by intros (_ & _ & ?). }
  eexists. split; [done|]. by split.
Qed.

Lemma do_GET_always_answers_witness :
  healthy (set_locked true demo) ∧
  ∃ r,
    do_GET "/api/names/" (set_locked true demo) = (Returned r, set_locked true demo) ∧
    (r = Error 404 ↔
     "/api/names/" ≠ "/" ∧ "/api/names/" ≠ "/api/names"
     ∧ String.prefix "/api/data/" "/api/names/" = false).
Proof.
  split; [reflexivity|].
  apply (do_GET_always_answers "/api/names/" (set_locked true demo)). reflexivity.
Defined.
